(** * socket-activate: a socket-activated TCP proxy

    Shallow embedding of the two Go programs of the repository,
    [socket-activate.go] (module [Activate]) and the older
    [socket-activator.go] (module [Activator]), and of the properties their
    specification states about them.

    Time is counted in nanoseconds, as Go's [time.Duration] does.  The
    outside world (how long a blocking call takes, whether a dial or an
    accept succeeds, what a read returns) is given to every function as a
    script that the function consumes in program order. *)

From Stdlib Require Import ZArith List Lia Bool String DecimalString.
From Stdlib Require Import DecimalPos DecimalZ.
From stdpp Require Import base list.
Import ListNotations.
Open Scope Z_scope.

(** ** Go integers and durations *)

(** Go's [int] and [int64] (and so [time.Duration]) on a 64-bit platform:
    two's complement wrap-around. *)
Definition wrap64 (z : Z) : Z := (z + 2 ^ 63) mod 2 ^ 64 - 2 ^ 63.

Definition Nanosecond : Z := 1.
Definition Millisecond : Z := 1000000 * Nanosecond.
Definition Second : Z := 1000 * Millisecond.

(** [log.Fatal] prints and calls [os.Exit(1)]. *)
Definition log_Fatal_code : Z := 1.

(** [strconv.Itoa]. *)
Definition Itoa (n : Z) : string := NilZero.string_of_int (Z.to_int n).

(** ** The newer program: socket-activate.go *)

Module Activate.

(** *** The world seen by [startTCPProxy] *)

(** One call of [net.Dial]: how long it took, whether it returned a
    connection, and by how much the [time.Sleep] that follows a failure
    overshoots the requested delay. *)
Record dial_try := DialTry {
  dial_took : Z;
  dial_ok : bool;
  oversleep : Z
}.

(** One call of [l.Accept]: how long it blocked, whether it returned a
    connection, and the dials made for that connection. *)
Record incoming := Incoming {
  accept_took : Z;
  accept_ok : bool;
  dials : list dial_try
}.

(** What the proxy loop does, in program order. *)
Inductive event :=
| EvStart                        (* unitCtrl.startSystemdUnit(), line 164 *)
| EvSignal                       (* activityMonitor <- true, line 101 *)
| EvAccept (ok : bool)           (* l.Accept(), line 102 *)
| EvDial (began : Z) (ok : bool) (* net.Dial, line 113, called at clock began *)
| EvSince (clk : Z)              (* time.Since(startTime), line 125, at clk *)
| EvSleep (d : Z)                (* time.Sleep(delay), line 138 *)
| EvSpawn                        (* the two go statements, lines 144-145 *)
| EvClose                        (* l.Close(), deferred at line 95 *)
| EvExit (code : Z).             (* os.Exit *)

Definition maxRetries : Z := 10.

(** Lines 130-133: [attempt++] and the cap. *)
Definition bump_attempt (attempt : Z) : Z :=
  let attempt := wrap64 (attempt + 1) in
  if maxRetries <=? attempt then wrap64 (maxRetries - 1) else attempt.

(** Line 136: [time.Duration(500*(1<<attempt)) * time.Millisecond].
    (A negative shift count panics in Go; [attempt] is never negative.) *)
Definition backoff_delay (attempt : Z) : Z :=
  wrap64 (wrap64 (500 * wrap64 (Z.shiftl 1 attempt)) * Millisecond).

(** How the dial loop of one accepted connection ends. *)
Inductive dial_result :=
| Connected (now : Z)               (* break, line 115 *)
| ProcessExit (code : Z)            (* os.Exit, lines 121 and 127 *)
| StillDialing (attempt now : Z).   (* the script ends inside the loop *)

(** How [startTCPProxy] ends. *)
Inductive proxy_result :=
| BlockedOnSend                         (* line 101 with nobody receiving *)
| Accepting (had : bool) (now : Z)      (* blocked in Accept: script used up *)
| Returned                              (* Accept failed, line 105 *)
| Exited (code : Z)
| Dialing (attempt now : Z).

Section Proxy.

Variable backendTimeout : Z.

(** Lines 112-139.  [now] is the clock when the iteration starts. *)
Fixpoint dial_loop (hadSuccessfulConnection : bool)
    (startTime attempt now : Z)
    (tries : list dial_try) : dial_result * list event :=
  match tries with
  | [] => (StillDialing attempt now, [])
  | t :: rest =>
      let began := now in
      let now := now + dial_took t in
      if dial_ok t then (Connected now, [EvDial began true])
      else if hadSuccessfulConnection then
        (ProcessExit 0, [EvDial began false; EvExit 0])
      else if backendTimeout <? now - startTime then
        (ProcessExit 0, [EvDial began false; EvSince now; EvExit 0])
      else
        let attempt := bump_attempt attempt in
        let delay := backoff_delay attempt in
        let '(r, tr) :=
          dial_loop hadSuccessfulConnection startTime attempt
                    (now + Z.max 0 delay + oversleep t) rest in
        (r, EvDial began false :: EvSince now :: EvSleep delay :: tr)
  end.

(** Lines 100-146.  [armed] tells whether a receiver runs on the activity
    channel: the channel is unbuffered, so the send of line 101 completes
    only then.  This is the main goroutine alone; the supervisor, when it
    runs, may end the process at any point of the trace. *)
Fixpoint accept_loop (armed hadSuccessfulConnection : bool)
    (startTime now : Z)
    (script : list incoming) : proxy_result * list event :=
  if negb armed then (BlockedOnSend, [])
  else
    match script with
    | [] => (Accepting hadSuccessfulConnection now, [EvSignal])
    | c :: rest =>
        let now := now + accept_took c in
        if negb (accept_ok c) then
          (Returned, [EvSignal; EvAccept false; EvClose])
        else
          match
            dial_loop hadSuccessfulConnection startTime 0 now (dials c)
          with
          | (Connected now, tr) =>
              let '(r, tr') := accept_loop armed true startTime now rest in
              (r, EvSignal :: EvAccept true :: tr ++ EvSpawn :: tr')
          | (ProcessExit code, tr) =>
              (Exited code, EvSignal :: EvAccept true :: tr)
          | (StillDialing attempt now, tr) =>
              (Dialing attempt now, EvSignal :: EvAccept true :: tr)
          end
    end.

(** Lines 90-98, then the loop: [startTime] is the clock on entry. *)
Definition startTCPProxy (listener_ok armed : bool) (now : Z)
    (script : list incoming) : proxy_result * list event :=
  if negb listener_ok then (Exited log_Fatal_code, [])
  else
    let hadSuccessfulConnection := false in
    let startTime := now in
    accept_loop armed hadSuccessfulConnection startTime now script.

End Proxy.

(** The delays slept, in order. *)
Fixpoint sleeps (tr : list event) : list Z :=
  match tr with
  | [] => []
  | EvSleep d :: tr => d :: sleeps tr
  | _ :: tr => sleeps tr
  end.

(** *** The unit controller *)

(** Lines 46-64: the D-Bus call either stores its answer or the method
    ends in [log.Fatal].  [None] is a normal return, [Some code] the exit
    status of the process. *)
Definition startSystemdUnit (call_ok : bool) : option Z :=
  if call_ok then None else Some log_Fatal_code.

Definition stopSystemdUnit (call_ok : bool) : option Z :=
  if call_ok then None else Some log_Fatal_code.

(** *** The idle supervisor *)

(** When the next sender is ready on the activity channel, counted from the
    moment the supervisor enters [select]. *)
Inductive arrival :=
| Arrives (gap : Z)
| Never.

(** One pass through [select]: the next arrival and, should the sender and
    the timer be ready at the same instant, which case the runtime picks. *)
Record wait := Wait {
  next_signal : arrival;
  tie_to_activity : bool
}.

Inductive select_case := CaseActivity | CaseTimer.

(** Lines 68-70: [time.After(d)] delivers after [d], at once when [d <= 0]. *)
Definition select_wait (timeout : Z) (w : wait) : select_case :=
  match next_signal w with
  | Never => CaseTimer
  | Arrives gap =>
      let fire := Z.max 0 timeout in
      if gap <? fire then CaseActivity
      else if fire <? gap then CaseTimer
      else if tie_to_activity w then CaseActivity else CaseTimer
  end.

Inductive sup_event :=
| SupActivity          (* case <-activity *)
| SupStop              (* unitCtrl.stopSystemdUnit() *)
| SupExit (code : Z).  (* os.Exit *)

Inductive sup_result :=
| Armed                   (* waiting in select: script used up *)
| SupExited (code : Z).

(** Lines 66-75. *)
Fixpoint terminateWithoutActivity (timeout : Z) (stop_ok : bool)
    (waits : list wait) : sup_result * list sup_event :=
  match waits with
  | [] => (Armed, [])
  | w :: rest =>
      match select_wait timeout w with
      | CaseActivity =>
          let '(r, tr) := terminateWithoutActivity timeout stop_ok rest in
          (r, SupActivity :: tr)
      | CaseTimer =>
          match stopSystemdUnit stop_ok with
          | Some code => (SupExited code, [SupStop])
          | None => (SupExited 0, [SupStop; SupExit 0])
          end
      end
  end.

Definition stops (tr : list sup_event) : nat :=
  List.length
    (List.filter (fun e => match e with SupStop => true | _ => false end) tr).

(** *** The byte forwarder *)

(** One call of [from.Read(buffer)]: the bytes it stored at the front of
    the buffer (their number is the [i] it returns) and whether [err] is
    non-nil. *)
Record read := Read {
  read_data : list Byte.byte;
  read_err : bool
}.

Inductive fwd_event :=
| FwdSignal                          (* activityMonitor <- true, line 85 *)
| FwdWrite (bytes : list Byte.byte). (* to.Write(buffer[:i]), line 86 *)

Inductive fwd_result :=
| FwdReturned   (* return, line 83 *)
| FwdReading.   (* blocked in Read: script used up *)

(** Line 78. *)
Definition make_buffer : list Byte.byte := List.repeat Byte.x00 1024.

(** What [Read] leaves in the buffer. *)
Definition store (buffer data : list Byte.byte) : list Byte.byte :=
  data ++ drop (List.length data) buffer.

(** Lines 80-87, from a given buffer.  A forwarder exists only after an
    accept, so a receiver runs on the activity channel. *)
Fixpoint forward (buffer : list Byte.byte) (reads : list read)
    : fwd_result * list fwd_event :=
  match reads with
  | [] => (FwdReading, [])
  | r :: rest =>
      let buffer := store buffer (read_data r) in
      let i := List.length (read_data r) in
      if read_err r then (FwdReturned, [])
      else
        let '(res, tr) := forward buffer rest in
        (res, FwdSignal :: FwdWrite (take i buffer) :: tr)
  end.

(** Lines 77-88. *)
Definition proxyNetworkConnections (reads : list read)
    : fwd_result * list fwd_event :=
  forward make_buffer reads.

(** *** main *)

(** What [main] finds outside the proxy loop. *)
Record world := World {
  LISTEN_PID : string;     (* os.Getenv("LISTEN_PID") *)
  pid : Z;                 (* os.Getpid() *)
  bus_ok : bool;           (* dbus.SystemBus / dbus.SessionBus *)
  start_ok : bool;         (* the StartUnit call *)
  listener_ok : bool;      (* net.FileListener *)
  clock0 : Z;              (* the clock when startTCPProxy is entered *)
  conns : list incoming
}.

(** Line 152. *)
Definition activated (w : world) : bool :=
  String.eqb (LISTEN_PID w) (Itoa (pid w)).

(** Lines 149-168, the main goroutine alone: [armed] is whether line 160
    started the supervisor. *)
Definition main (timeout backendTimeout : Z) (w : world)
    : proxy_result * list event :=
  if negb (activated w) then (Exited log_Fatal_code, [])
  else if negb (bus_ok w) then (Exited log_Fatal_code, [])
  else
    let armed := negb (timeout =? 0) in
    match startSystemdUnit (start_ok w) with
    | Some code => (Exited code, [EvStart])
    | None =>
        let '(r, tr) :=
          startTCPProxy backendTimeout (listener_ok w) armed (clock0 w)
                        (conns w) in
        (r, EvStart :: tr)
    end.

End Activate.

(** ** The goroutines of socket-activate.go together *)

(** The main goroutine, the supervisor and the forwarders as one transition
    system.  Time is left out: the timer of the supervisor may fire at any
    moment, the call of [stop] may take any time, and whether a failed dial
    is past the deadline is the world's choice.  The activity channel is
    unbuffered: a send happens only as a hand-off with the supervisor,
    which is its only receiver and receives only while it is in its
    select. *)

Module Interleaving.

Record config := Config {
  timeout : Z;             (* flag -t *)
  env : Activate.world     (* only LISTEN_PID and pid are read *)
}.

(** Where the main goroutine stands: the call it makes next. *)
Inductive main_pc :=
| AtCheckEnv        (* line 152 *)
| AtNewController   (* line 156 *)
| AtMakeChannel     (* lines 158-161 *)
| AtStartUnit       (* line 164 *)
| AtFileListener    (* line 91 *)
| AtSend            (* line 101 *)
| AtAccept          (* line 102 *)
| AtDial.           (* line 113 *)

(** Where a forwarder stands. *)
Inductive fwd_pc :=
| FwRead    (* line 81 *)
| FwSend    (* line 85, the write of line 86 follows at once *)
| FwDone.   (* line 83 *)

Inductive thread :=
| Main
| Supervisor
| Forwarder (i : nat).

Inductive action :=
| ActStart            (* startSystemdUnit called *)
| ActStop             (* stopSystemdUnit called *)
| ActTimer            (* the time.After case of the select taken *)
| ActSend             (* a value handed to the supervisor *)
| ActAccept           (* l.Accept returned a connection *)
| ActExit (code : Z). (* the process ended *)

Inductive process :=
| Alive
| Dead (code : Z).

Record state := State {
  proc : process;
  at_main : main_pc;
  receiver : bool;             (* terminateWithoutActivity runs *)
  stopping : bool;             (* it is inside stopSystemdUnit, line 71 *)
  hadSuccessfulConnection : bool;
  forwarders : list fwd_pc;
  log : list (thread * action) (* oldest first *)
}.

Definition init : state := State Alive AtCheckEnv false false false [] [].

(** What the scheduler and the world choose. *)
Inductive label :=
| StepMain (ok late : bool)   (* main makes its call; it succeeds or not;
                                 a failed dial is past the deadline or not *)
| Handoff (from : thread)     (* a sender and the supervisor meet *)
| TimerFires                  (* the supervisor takes the timer case of its
                                 select and calls stopSystemdUnit *)
| StopReturns (stop_ok : bool) (* that call returns, or ends in log.Fatal *)
| StepRead (i : nat) (ok : bool). (* forwarder i returns from Read *)

Definition goto (pc : main_pc) (s : state) : state :=
  State (proc s) pc (receiver s) (stopping s) (hadSuccessfulConnection s)
        (forwarders s) (log s).

Definition emit (t : thread) (a : action) (s : state) : state :=
  State (proc s) (at_main s) (receiver s) (stopping s)
        (hadSuccessfulConnection s) (forwarders s) (log s ++ [(t, a)]).

Definition die (t : thread) (code : Z) (s : state) : state :=
  State (Dead code) (at_main s) (receiver s) (stopping s)
        (hadSuccessfulConnection s) (forwarders s)
        (log s ++ [(t, ActExit code)]).

Definition set_forwarders (fs : list fwd_pc) (s : state) : state :=
  State (proc s) (at_main s) (receiver s) (stopping s)
        (hadSuccessfulConnection s) fs (log s).

Definition step_main (cfg : config) (ok late : bool) (s : state)
    : option state :=
  match at_main s with
  | AtCheckEnv =>
      if Activate.activated (env cfg) then Some (goto AtNewController s)
      else Some (die Main log_Fatal_code s)
  | AtNewController =>
      if ok then Some (goto AtMakeChannel s)
      else Some (die Main log_Fatal_code s)
  | AtMakeChannel =>
      Some (State (proc s) AtStartUnit (negb (timeout cfg =? 0)) (stopping s)
                  (hadSuccessfulConnection s) (forwarders s) (log s))
  | AtStartUnit =>
      let s := emit Main ActStart s in
      match Activate.startSystemdUnit ok with
      | Some code => Some (die Main code s)
      | None => Some (goto AtFileListener s)
      end
  | AtFileListener =>
      if ok then Some (goto AtSend s)
      else Some (die Main log_Fatal_code s)
  | AtSend => None
  | AtAccept =>
      if ok then Some (goto AtDial (emit Main ActAccept s))
      else Some (die Main 0 s)      (* startTCPProxy and main return *)
  | AtDial =>
      if ok then
        Some (State (proc s) AtSend (receiver s) (stopping s) true
                    (forwarders s ++ [FwRead; FwRead]) (log s))
      else if hadSuccessfulConnection s then Some (die Main 0 s)
      else if late then Some (die Main 0 s)
      else Some s                   (* sleep, then dial again *)
  end.

(** A hand-off needs the supervisor in its select: it is not there before
    it is started, nor once it has taken the timer case. *)
Definition step_handoff (from : thread) (s : state) : option state :=
  if negb (receiver s) || stopping s then None
  else
    match from with
    | Main =>
        match at_main s with
        | AtSend => Some (goto AtAccept (emit Main ActSend s))
        | _ => None
        end
    | Forwarder i =>
        match forwarders s !! i with
        | Some FwSend =>
            Some (set_forwarders (<[i := FwRead]> (forwarders s))
                                 (emit (Forwarder i) ActSend s))
        | _ => None
        end
    | Supervisor => None
    end.

(** Lines 70-71: the timer case is taken and [stopSystemdUnit] called;
    the supervisor has left its select and the call is under way. *)
Definition step_timer (s : state) : option state :=
  if negb (receiver s) || stopping s then None
  else
    let s := emit Supervisor ActStop (emit Supervisor ActTimer s) in
    Some (State (proc s) (at_main s) (receiver s) true
                (hadSuccessfulConnection s) (forwarders s) (log s)).

(** Lines 59-62 and 72: the call ends in [log.Fatal], or it returns and
    [os.Exit(0)] follows. *)
Definition step_stopped (stop_ok : bool) (s : state) : option state :=
  if negb (stopping s) then None
  else
    match Activate.stopSystemdUnit stop_ok with
    | Some code => Some (die Supervisor code s)
    | None => Some (die Supervisor 0 s)
    end.

Definition step_read (i : nat) (ok : bool) (s : state) : option state :=
  match forwarders s !! i with
  | Some FwRead =>
      let pc := if ok then FwSend else FwDone in
      Some (set_forwarders (<[i := pc]> (forwarders s)) s)
  | _ => None
  end.

(** One step; [None] when the label is not enabled. *)
Definition step (cfg : config) (l : label) (s : state) : option state :=
  match proc s with
  | Dead _ => None
  | Alive =>
      match l with
      | StepMain ok late => step_main cfg ok late s
      | Handoff from => step_handoff from s
      | TimerFires => step_timer s
      | StopReturns stop_ok => step_stopped stop_ok s
      | StepRead i ok => step_read i ok s
      end
  end.

Fixpoint exec (cfg : config) (ls : list label) (s : state) : option state :=
  match ls with
  | [] => Some s
  | l :: ls =>
      match step cfg l s with
      | Some s' => exec cfg ls s'
      | None => None
      end
  end.

Definition same_action (a b : action) : bool :=
  match a, b with
  | ActStart, ActStart | ActStop, ActStop | ActTimer, ActTimer
  | ActSend, ActSend | ActAccept, ActAccept => true
  | ActExit c, ActExit c' => c =? c'
  | _, _ => false
  end.

(** How often an action is in a log. *)
Fixpoint count (a : action) (lg : list (thread * action)) : nat :=
  match lg with
  | [] => 0
  | e :: lg => ((if same_action a (snd e) then 1 else 0) + count a lg)%nat
  end.

End Interleaving.

(** ** The two connections of a pair *)

(** What [net.Conn] gives the two forwarders of one pair: each connection
    has a peer (the client, the backend) that sends or closes, and the
    proxy's own end, which [Close] would shut.  A [Write] can fail, on a
    connection the peer has reset or closed, after it has delivered a part
    of its bytes or none; how far each coming [Write] gets is part of the
    connection's script.  One step is one turn of the loop of
    [proxyNetworkConnections]. *)

Module Connections.

Inductive peer_action :=
| Sends (data : list Byte.byte)
| Closes.

Record conn := Conn {
  inbox : list peer_action;     (* what the peer does next, in order *)
  closed_here : bool;           (* Close was called on the proxy's end *)
  written : list Byte.byte;     (* what the proxy's writes delivered to it *)
  room : list nat               (* how many bytes each coming Write delivers
                                   before it fails; a Write past the end of
                                   the list delivers all of its bytes *)
}.

Inductive read_result :=
| Blocks
| Fails                                     (* err != nil, EOF included *)
| Gets (data : list Byte.byte) (c : conn).

Definition conn_read (c : conn) : read_result :=
  if closed_here c then Fails
  else
    match inbox c with
    | [] => Blocks
    | Closes :: _ => Fails
    | Sends data :: rest =>
        Gets data (Conn rest (closed_here c) (written c) (room c))
    end.

(** [Write] returns the number of bytes written and an error, on a closed
    connection and whenever that number is smaller than asked for; line 86
    drops both results, so a forwarder goes on after a failed or a short
    [Write] as after a full one. *)
Definition conn_write (c : conn) (data : list Byte.byte) : conn :=
  if closed_here c then c
  else
    match room c with
    | [] => Conn (inbox c) (closed_here c) (written c ++ data) []
    | n :: rest =>
        Conn (inbox c) (closed_here c) (written c ++ take n data) rest
    end.

Inductive task := Running | Finished.

(** [FromClient] is [proxyNetworkConnections(connOutwards, connBackend)],
    line 144; [FromBackend] the one of line 145. *)
Inductive direction := FromClient | FromBackend.

Record pair := Pair {
  connOutwards : conn;
  connBackend : conn;
  task_from_client : task;
  task_from_backend : task
}.

(** One turn of lines 80-87 for the forwarder of direction [d]; [None]
    when it has returned or is blocked in [Read].  No line calls [Close]. *)
Definition step_pair (d : direction) (p : pair) : option pair :=
  match d with
  | FromClient =>
      match task_from_client p with
      | Finished => None
      | Running =>
          match conn_read (connOutwards p) with
          | Blocks => None
          | Fails =>
              Some (Pair (connOutwards p) (connBackend p) Finished
                         (task_from_backend p))
          | Gets data c =>
              Some (Pair c (conn_write (connBackend p) data) Running
                         (task_from_backend p))
          end
      end
  | FromBackend =>
      match task_from_backend p with
      | Finished => None
      | Running =>
          match conn_read (connBackend p) with
          | Blocks => None
          | Fails =>
              Some (Pair (connOutwards p) (connBackend p)
                         (task_from_client p) Finished)
          | Gets data c =>
              Some (Pair (conn_write (connOutwards p) data) c
                         (task_from_client p) Running)
          end
      end
  end.

(** A schedule for one pair; a turn that is not enabled is skipped. *)
Fixpoint run_pair (sched : list direction) (p : pair) : pair :=
  match sched with
  | [] => p
  | d :: sched =>
      match step_pair d p with
      | Some p' => run_pair sched p'
      | None => run_pair sched p
      end
  end.

(** All pairs of the process: forwarder [d] of pair [i] takes a turn. *)
Definition step_pairs (i : nat) (d : direction) (ps : list pair)
    : option (list pair) :=
  match ps !! i with
  | Some p =>
      match step_pair d p with
      | Some p' => Some (<[i := p']> ps)
      | None => None
      end
  | None => None
  end.

End Connections.

(** ** The older program: socket-activator.go *)

Module Activator.

Inductive event :=
| EvSignal             (* activityMonitor <- true, line 84 *)
| EvAccept (ok : bool) (* l.Accept(), line 85 *)
| EvDial (ok : bool)   (* net.Dial, line 94 *)
| EvSleep (d : Z)      (* time.Sleep, line 97 *)
| EvAbandon            (* continue, line 104 *)
| EvSpawn              (* the two go statements, lines 107-108 *)
| EvClose.             (* l.Close(), deferred at line 81 *)

(** How the loop of lines 93-102 is left. *)
Inductive dial_result :=
| LoopLeft (tryCount : Z) (connected : bool) (* by break, or by its guard *)
| StillDialing (tryCount : Z).               (* the script ends in the loop *)

(** Lines 93-102: the result of each [net.Dial] is in [tries]. *)
Fixpoint dial_loop (tryCount : Z) (tries : list bool)
    : dial_result * list event :=
  if tryCount <? 10 then
    match tries with
    | [] => (StillDialing tryCount, [])
    | ok :: rest =>
        if negb ok then
          let '(r, tr) := dial_loop tryCount rest in
          (r, EvDial false :: EvSleep (100 * Millisecond) :: tr)
        else (LoopLeft tryCount true, [EvDial true])
    end
  else (LoopLeft tryCount false, []).

Inductive proxy_result :=
| Accepting            (* blocked in Accept: script used up *)
| Returned             (* Accept failed, line 88 *)
| Dialing (tryCount : Z).

(** Lines 83-109, a receiver running on the activity channel. *)
Fixpoint accept_loop (script : list (bool * list bool))
    : proxy_result * list event :=
  match script with
  | [] => (Accepting, [EvSignal])
  | (accept_ok, tries) :: rest =>
      if negb accept_ok then (Returned, [EvSignal; EvAccept false; EvClose])
      else
        let tryCount := 0 in
        match dial_loop tryCount tries with
        | (StillDialing tryCount, tr) =>
            (Dialing tryCount, EvSignal :: EvAccept true :: tr)
        | (LoopLeft tryCount _, tr) =>
            let '(r, tr') := accept_loop rest in
            if 10 <=? tryCount then
              (r, EvSignal :: EvAccept true :: tr ++ EvAbandon :: tr')
            else
              (r, EvSignal :: EvAccept true :: tr ++ EvSpawn :: tr')
        end
  end.

End Activator.

(** ** Vocabulary of the statements *)

Module Vocabulary.
Import Activate.

(** The delay slept after the [k]-th failure in a row: the exponent stops
    growing at 9. *)
Definition capped_delay (k : Z) : Z := 500 * 2 ^ Z.min k 9 * Millisecond.

(** A try that fails, with durations that are not negative. *)
Definition fails (t : dial_try) : Prop :=
  dial_ok t = false /\ 0 <= dial_took t /\ 0 <= oversleep t.

(** The events that follow a failed dial made before any success, for the
    deadline [bt] counted from the clock [st]: either the clock read is
    past the deadline and the process exits, or it is not and the loop
    sleeps and dials again. *)
Definition after_failed_dial (bt st : Z) (post : list event)
    (exited dialing : Prop) : Prop :=
  (exists clk, bt < clk - st /\ post = [EvSince clk; EvExit 0] /\ exited) \/
  (exists clk d post',
     clk - st <= bt /\ post = EvSince clk :: EvSleep d :: post' /\
     ((post' = [] /\ dialing) \/
      exists b' ok post'', post' = EvDial b' ok :: post'')).

(** Every reading of the clock at line 125 found the deadline [bt],
    counted from the clock [st], not passed. *)
Definition within_deadline (bt st : Z) (tr : list event) : bool :=
  forallb (fun e =>
             match e with
             | EvSince clk => clk - st <=? bt
             | _ => true
             end) tr.
(** A pass through [select] in which a sender is ready before the idle
    timeout is over. *)
Definition lively (timeout : Z) (w : wait) : Prop :=
  exists gap, next_signal w = Arrives gap /\ gap < timeout.

(** A pass through [select] in which no sender is ready within the idle
    timeout. *)
Definition silent (timeout : Z) (w : wait) : Prop :=
  match next_signal w with
  | Never => True
  | Arrives gap => Z.max 0 timeout < gap
  end.

(** The reads that come before the first one that reports an error. *)
Fixpoint before_error (reads : list read) : list read :=
  match reads with
  | [] => []
  | r :: rest => if read_err r then [] else r :: before_error rest
  end.

(** A property of every event of a log and of the events before it. *)
Definition each_event {E} (P : list E -> E -> Prop) (lg : list E) : Prop :=
  forall pre x post, lg = pre ++ x :: post -> P pre x.

(** The main goroutine is inside [startTCPProxy]. *)
Definition in_loop (pc : Interleaving.main_pc) : bool :=
  match pc with
  | Interleaving.AtFileListener | Interleaving.AtSend
  | Interleaving.AtAccept | Interleaving.AtDial => true
  | _ => false
  end.

(** The connection a forwarder reads and the task that runs it. *)
Definition source (d : Connections.direction) (p : Connections.pair)
    : Connections.conn :=
  match d with
  | Connections.FromClient => Connections.connOutwards p
  | Connections.FromBackend => Connections.connBackend p
  end.

Definition task_of (d : Connections.direction) (p : Connections.pair)
    : Connections.task :=
  match d with
  | Connections.FromClient => Connections.task_from_client p
  | Connections.FromBackend => Connections.task_from_backend p
  end.

Section System.
Import Interleaving.

(** What holds of every state the program reaches. *)
Record Inv (cfg : config) (s : state) : Prop := {
  inv_receiver : receiver s = true -> timeout cfg <> 0;
  inv_start_le : (count ActStart (log s) <= 1)%nat;
  inv_start_loop :
    in_loop (at_main s) = true -> count ActStart (log s) = 1%nat;
  inv_start_before :
    proc s = Alive -> in_loop (at_main s) = false ->
    count ActStart (log s) = 0%nat;
  inv_accept :
    each_event (fun pre e => snd e = ActAccept -> count ActStart pre = 1%nat)
               (log s);
  inv_no_stop : stopping s = false -> count ActStop (log s) = 0%nat;
  inv_stopping : stopping s = true -> receiver s = true;
  inv_stop_le : (count ActStop (log s) <= 1)%nat;
  inv_stop :
    each_event (fun pre e => snd e = ActStop ->
                  fst e = Supervisor /\ timeout cfg <> 0 /\
                  exists pre', pre = pre' ++ [(Supervisor, ActTimer)])
               (log s)
}.

(** What holds of every state reached without a supervisor. *)
Record Quiet (s : state) : Prop := {
  quiet_receiver : receiver s = false;
  quiet_stopping : stopping s = false;
  quiet_forwarders : forwarders s = [];
  quiet_pc : at_main s <> AtAccept /\ at_main s <> AtDial;
  quiet_accept : count ActAccept (log s) = 0%nat;
  quiet_send : count ActSend (log s) = 0%nat
}.

End System.

End Vocabulary.

(** ** The unit controller of socket-activate.go *)

(** Lines 24-64: which bus the controller is connected to and what it
    sends there.  Whether a bus can be reached is the world's. *)

Module UnitControl.

Inductive bus := SessionBus | SystemBus.

(** The struct of lines 24-27. *)
Record unitController := UnitController {
  conn : bus;
  unitname : string
}.

(** A method call as [obj.Call] of lines 48-49 and 58-59 sends it. *)
Record method_call := MethodCall {
  call_bus : bus;
  call_dest : string;
  call_path : string;
  call_method : string;
  call_flags : Z;
  call_unit : string;
  call_mode : string
}.

(** Lines 29-44: [inr] is the exit status of [log.Fatal]. *)
Definition newUnitController (user : bool) (reachable : bus -> bool)
    (name : string) : unitController + Z :=
  if user then
    if reachable SessionBus then inl (UnitController SessionBus name)
    else inr log_Fatal_code
  else
    if reachable SystemBus then inl (UnitController SystemBus name)
    else inr log_Fatal_code.

(** Lines 47-49. *)
Definition start_call (unitCtrl : unitController) : method_call :=
  MethodCall (conn unitCtrl) "org.freedesktop.systemd1"
             "/org/freedesktop/systemd1"
             "org.freedesktop.systemd1.Manager.StartUnit" 0
             (unitname unitCtrl) "replace".

(** Lines 57-59. *)
Definition stop_call (unitCtrl : unitController) : method_call :=
  MethodCall (conn unitCtrl) "org.freedesktop.systemd1"
             "/org/freedesktop/systemd1"
             "org.freedesktop.systemd1.Manager.StopUnit" 0
             (unitname unitCtrl) "replace".

(** The same call with another method. *)
Definition with_method (m : string) (c : method_call) : method_call :=
  MethodCall (call_bus c) (call_dest c) (call_path c) m (call_flags c)
             (call_unit c) (call_mode c).

End UnitControl.

(** ** Vocabulary of the further properties *)

Module Observations.
Import Activate.

(** The bytes handed to [to.Write], in order. *)
Definition written_bytes (tr : list fwd_event) : list Byte.byte :=
  List.flat_map (fun e => match e with FwdWrite b => b | FwdSignal => [] end)
                tr.

(** The exponents the back-off can use. *)
Definition backoff_step (d : Z) : Prop :=
  exists j, 1 <= j <= 9 /\ d = 500 * 2 ^ j * Millisecond.

(** Which event can come right after which in a run of the proxy loop. *)
Definition may_follow (x y : event) : bool :=
  match x, y with
  | EvStart, EvSignal => true
  | EvSignal, EvAccept _ => true
  | EvAccept true, EvDial _ _ => true
  | EvAccept false, EvClose => true
  | EvDial _ true, EvSpawn => true
  | EvDial _ false, EvSince _ => true
  | EvDial _ false, EvExit _ => true
  | EvSince _, EvSleep _ => true
  | EvSince _, EvExit _ => true
  | EvSleep _, EvDial _ _ => true
  | EvSpawn, EvSignal => true
  | _, _ => false
  end.

(** Every two neighbours of a list are related. *)
Fixpoint chain {E} (R : E -> E -> bool) (l : list E) : Prop :=
  match l with
  | [] => True
  | x :: l' =>
      match l' with
      | [] => True
      | y :: _ => R x y = true
      end /\ chain R l'
  end.

(** The time slept in the [n] delays that follow the counter value [a]. *)
Fixpoint slept (a : Z) (n : nat) : Z :=
  match n with
  | O => 0
  | S n => Vocabulary.capped_delay (a + 1) + slept (a + 1) n
  end.

(** The same world for another process. *)
Definition with_pid (w : world) (p : Z) : world :=
  World (LISTEN_PID w) p (bus_ok w) (start_ok w) (listener_ok w) (clock0 w)
        (conns w).

(** What the older program sees of a connection of the newer one's world:
    the outcomes, without the durations. *)
Definition outcomes (c : incoming) : bool * list bool :=
  (accept_ok c, List.map dial_ok (dials c)).

(** The events of the newer program that the older one has too. *)
Definition old_event (e : event) : list Activator.event :=
  match e with
  | EvStart => []
  | EvSignal => [Activator.EvSignal]
  | EvAccept ok => [Activator.EvAccept ok]
  | EvDial _ ok => [Activator.EvDial ok]
  | EvSince _ => []
  | EvSleep d => [Activator.EvSleep d]
  | EvSpawn => [Activator.EvSpawn]
  | EvClose => [Activator.EvClose]
  | EvExit _ => []
  end.

(** A connection whose first dial, if any, succeeds. *)
Definition answered (c : incoming) : Prop :=
  match dials c with
  | [] => True
  | t :: _ => dial_ok t = true
  end.

(** The bytes a peer has sent and the proxy has not read yet. *)
Fixpoint pending (inbox : list Connections.peer_action) : list Byte.byte :=
  match inbox with
  | [] => []
  | Connections.Sends data :: rest => data ++ pending rest
  | Connections.Closes :: _ => []
  end.

(** How many chunks a peer has sent before it closes or falls silent. *)
Fixpoint chunks_ahead (inbox : list Connections.peer_action) : nat :=
  match inbox with
  | Connections.Sends _ :: rest => S (chunks_ahead rest)
  | _ => 0
  end.

(** Both ends open on the proxy's side, as the proxy leaves them. *)
Definition open_pair (p : Connections.pair) : Prop :=
  Connections.closed_here (Connections.connOutwards p) = false /\
  Connections.closed_here (Connections.connBackend p) = false.

(** The connection a forwarder writes to. *)
Definition sink (d : Connections.direction) (p : Connections.pair)
    : Connections.conn :=
  match d with
  | Connections.FromClient => Connections.connBackend p
  | Connections.FromBackend => Connections.connOutwards p
  end.

(** How many turns of a schedule are for the forwarder [d]. *)
Fixpoint turns (d : Connections.direction)
    (sched : list Connections.direction) : nat :=
  match sched with
  | [] => 0
  | Connections.FromClient :: sched =>
      match d with
      | Connections.FromClient => S (turns d sched)
      | Connections.FromBackend => turns d sched
      end
  | Connections.FromBackend :: sched =>
      match d with
      | Connections.FromClient => turns d sched
      | Connections.FromBackend => S (turns d sched)
      end
  end.

(** The main goroutine is past line 160. *)
Definition channel_made (pc : Interleaving.main_pc) : bool :=
  match pc with
  | Interleaving.AtCheckEnv | Interleaving.AtNewController
  | Interleaving.AtMakeChannel => false
  | _ => true
  end.

Section Goroutines.
Import Interleaving.

(** What holds of the channel and of the forwarders in every state the
    program reaches. *)
Record Ready (cfg : config) (s : state) : Prop := {
  ready_receiver :
    channel_made (at_main s) = true ->
    receiver s = negb (timeout cfg =? 0);
  ready_early :
    channel_made (at_main s) = false ->
    receiver s = false /\ forwarders s = [];
  ready_dialing :
    at_main s = AtAccept \/ at_main s = AtDial -> receiver s = true;
  ready_forwarders : forwarders s <> [] -> receiver s = true;
  ready_pairs : exists k, List.length (forwarders s) = (2 * k)%nat;
  ready_flag : forwarders s <> [] <-> hadSuccessfulConnection s = true
}.

End Goroutines.

End Observations.

(** * Properties *)

(** ** Arithmetic of the back-off *)

Lemma wrap64_small z : - 2 ^ 63 <= z < 2 ^ 63 -> wrap64 z = z.
Proof.
  intros Hz. unfold wrap64.
  rewrite Z.mod_small; lia.
Qed.

Module BackoffFacts.
Import Activate Vocabulary.

(** The counter stays between 0 and 9 and is [min (attempt + 1) 9]. *)
Lemma bump_attempt_min a : 0 <= a <= 9 -> bump_attempt a = Z.min (a + 1) 9.
Proof.
  intros Ha. unfold bump_attempt, maxRetries.
  rewrite (wrap64_small (a + 1)) by lia.
  destruct (10 <=? a + 1) eqn:E.
  - apply Z.leb_le in E. rewrite wrap64_small; lia.
  - apply Z.leb_gt in E. lia.
Qed.

(** No product of line 136 leaves the range of [int64]. *)
Lemma backoff_delay_pow a :
  0 <= a <= 9 -> backoff_delay a = 500 * 2 ^ a * Millisecond.
Proof.
  intros Ha. unfold backoff_delay.
  rewrite Z.shiftl_1_l.
  assert (Hp : 1 <= 2 ^ a <= 2 ^ 9).
  { split.
    - apply (Z.pow_le_mono_r 2 0 a); lia.
    - apply Z.pow_le_mono_r; lia. }
  change (2 ^ 9) with 512 in Hp.
  unfold Millisecond, Nanosecond.
  rewrite (wrap64_small (2 ^ a)) by lia.
  rewrite (wrap64_small (500 * 2 ^ a)) by lia.
  rewrite wrap64_small by lia.
  reflexivity.
Qed.

Lemma backoff_delay_pos a : 0 <= a <= 9 -> 0 < backoff_delay a <= 256 * Second.
Proof.
  intros Ha. rewrite backoff_delay_pow by assumption.
  assert (Hp : 1 <= 2 ^ a <= 2 ^ 9).
  { split.
    - apply (Z.pow_le_mono_r 2 0 a); lia.
    - apply Z.pow_le_mono_r; lia. }
  change (2 ^ 9) with 512 in Hp.
  unfold Second, Millisecond, Nanosecond. lia.
Qed.

(** The delays of one dial loop follow the schedule from the counter the
    loop starts with, however the loop ends. *)
Lemma dial_sleeps_schedule bt had st tries : forall a now,
  0 <= a <= 9 ->
  sleeps (snd (dial_loop bt had st a now tries))
    = List.map (fun k => capped_delay (a + Z.of_nat k))
        (List.seq 1
           (List.length (sleeps (snd (dial_loop bt had st a now tries))))).
Proof.
  induction tries as [|t rest IH]; intros a now Ha; simpl.
  - reflexivity.
  - destruct (dial_ok t); [reflexivity|].
    destruct had; [reflexivity|].
    destruct (bt <? now + dial_took t - st); [reflexivity|].
    specialize (IH (bump_attempt a)
      (now + dial_took t + Z.max 0 (backoff_delay (bump_attempt a))
       + oversleep t)).
    rewrite (bump_attempt_min a Ha) in *.
    specialize (IH ltac:(lia)).
    destruct (dial_loop _ _ _ _ _ rest) as [r tr]. simpl in *.
    f_equal.
    + rewrite backoff_delay_pow by lia. unfold capped_delay.
      replace (Z.min (a + Z.of_nat 1) 9) with (Z.min (a + 1) 9) by lia.
      reflexivity.
    + rewrite IH at 1.
      rewrite <- (seq_shift (List.length (sleeps tr)) 1), List.map_map.
      apply List.map_ext. intros k. unfold capped_delay.
      replace (Z.min (Z.min (a + 1) 9 + Z.of_nat k) 9)
        with (Z.min (a + Z.of_nat (S k)) 9) by lia.
      reflexivity.
Qed.

(** A delay is slept after a failed dial only: the loop that sleeps a
    [k]-th time has dialled [k] times, each time in vain. *)
Lemma dial_sleeps_failed bt had st tries : forall a now (k : nat) d,
  sleeps (snd (dial_loop bt had st a now tries)) !! k = Some d ->
  (k < List.length tries)%nat /\
  forall (j : nat) t, (j <= k)%nat -> tries !! j = Some t -> dial_ok t = false.
Proof.
  induction tries as [|t rest IH]; intros a now k d H; simpl in H.
  - discriminate.
  - destruct (dial_ok t) eqn:Hok; [discriminate|].
    destruct had; [discriminate|].
    destruct (bt <? now + dial_took t - st); [discriminate|].
    specialize (IH (bump_attempt a)
      (now + dial_took t + Z.max 0 (backoff_delay (bump_attempt a))
       + oversleep t)).
    destruct (dial_loop _ _ _ _ _ rest) as [r tr]. simpl in *.
    destruct k as [|k].
    + split; [lia|]. intros j t' Hj Ht.
      replace j with 0%nat in Ht by lia. simpl in Ht. congruence.
    + destruct (IH k d H) as [Hlen Hall]. split; [lia|].
      intros [|j] t' Hj Ht; simpl in Ht; [congruence|].
      apply (Hall j t'); [lia | exact Ht].
Qed.

(** With failures only and no reading of the clock past the deadline, the
    loop sleeps after every dial and is still dialling. *)
Lemma dial_loop_goes_on bt st tries : forall a now,
  Forall (fun t => dial_ok t = false) tries ->
  within_deadline bt st (snd (dial_loop bt false st a now tries)) = true ->
  (exists a' now',
     fst (dial_loop bt false st a now tries) = StillDialing a' now') /\
  List.length (sleeps (snd (dial_loop bt false st a now tries)))
    = List.length tries.
Proof.
  induction tries as [|t rest IH]; intros a now Hall Hwd.
  - simpl. eauto.
  - inversion Hall as [|t' rest' Hok Hrest]; subst.
    simpl in *. rewrite Hok in *.
    destruct (bt <? now + dial_took t - st) eqn:Hc.
    + simpl in Hwd. apply Z.ltb_lt in Hc.
      apply andb_true_iff in Hwd. destruct Hwd as [Hwd _].
      apply Z.leb_le in Hwd. lia.
    + specialize (IH (bump_attempt a)
        (now + dial_took t + Z.max 0 (backoff_delay (bump_attempt a))
         + oversleep t) Hrest).
      destruct (dial_loop _ _ _ _ _ rest) as [r tr]. simpl in *.
      apply andb_true_iff in Hwd. destruct Hwd as [_ Hwd].
      destruct (IH Hwd) as [Hr Hl]. split; [exact Hr | lia].
Qed.

(** C3, as the code has it.  Whatever the dials return, however long they
    take and whatever the deadline, the delay slept after the k-th failure
    in a row of the dials for one connection is 500ms * 2^k for k <= 9 and
    the value of k = 9, 500ms * 2^9, for every k >= 10.  The loop goes on
    past ten failures: as long as no dial succeeds and no reading of the
    clock is past the deadline, it sleeps after every failed dial and
    dials again. *)
Theorem backoff_schedule bt had st now tries :
  (forall (k : nat) d, (1 <= k)%nat ->
     sleeps (snd (dial_loop bt had st 0 now tries)) !! (k - 1)%nat = Some d ->
     d = 500 * 2 ^ Z.min (Z.of_nat k) 9 * Millisecond /\
     (k <= List.length tries)%nat /\
     forall (j : nat) t,
       (j < k)%nat -> tries !! j = Some t -> dial_ok t = false) /\
  (had = false ->
   Forall (fun t => dial_ok t = false) tries ->
   within_deadline bt st (snd (dial_loop bt had st 0 now tries)) = true ->
   (exists a now',
      fst (dial_loop bt had st 0 now tries) = StillDialing a now') /\
   List.length (sleeps (snd (dial_loop bt had st 0 now tries)))
     = List.length tries).
Proof.
  split.
  - intros k d Hk H.
    destruct (dial_sleeps_failed bt had st tries 0 now _ d H) as [Hlen Hall].
    split; [|split; [lia | intros j t Hj; apply Hall; lia]].
    rewrite (dial_sleeps_schedule bt had st tries 0 now ltac:(lia)) in H.
    change (List.map ?f ?l) with (f <$> l) in H.
    rewrite list_lookup_fmap in H.
    destruct (List.seq 1 _ !! (k - 1)%nat) as [i|] eqn:Ei; [|discriminate].
    apply lookup_seq in Ei. destruct Ei as [-> _].
    injection H as <-. unfold capped_delay.
    do 3 f_equal. lia.
  - intros -> Hall Hwd. exact (dial_loop_goes_on bt st tries 0 now Hall Hwd).
Qed.

(** Five failures of one millisecond each with the default of thirty
    seconds to connect, twelve with one hour. *)
Lemma backoff_schedule_witness :
  ((exists a now',
      fst (dial_loop (30 * Second) false 0 0 0
             (List.repeat (DialTry Millisecond false 0) 5))
        = StillDialing a now') /\
   sleeps (snd (dial_loop (30 * Second) false 0 0 0
                  (List.repeat (DialTry Millisecond false 0) 5)))
     = [1 * Second; 2 * Second; 4 * Second; 8 * Second; 16 * Second]) /\
  256 * Second = 500 * 2 ^ Z.min (Z.of_nat 12) 9 * Millisecond.
Proof.
  split.
  - split; [|vm_compute; reflexivity].
    apply (proj2 (backoff_schedule (30 * Second) false 0 0
                    (List.repeat (DialTry Millisecond false 0) 5))).
    + reflexivity.
    + simpl. repeat (apply List.Forall_cons; [reflexivity|]).
      apply List.Forall_nil.
    + vm_compute. reflexivity.
  - apply (proj1 (backoff_schedule (3600 * Second) false 0 0
                    (List.repeat (DialTry Millisecond false 0) 12))
                 12%nat (256 * Second)).
    + lia.
    + vm_compute. reflexivity.
Defined.
(** C3 as stated fails at k = 10: the tenth delay is 500ms * 2^9, as the
    ninth, and not 500ms * 2^10. *)
Lemma tenth_delay_is_the_ninth :
  sleeps (snd (dial_loop (3600 * Second) false 0 0 0
                 (List.repeat (DialTry Millisecond false 0) 10)))
    !! 9%nat = Some (500 * 2 ^ 9 * Millisecond) /\
  500 * 2 ^ 9 * Millisecond <> 500 * 2 ^ 10 * Millisecond.
Proof.
  split.
  - vm_compute. reflexivity.
  - vm_compute. discriminate.
Qed.

End BackoffFacts.

(** ** Traces of the dial loop and of the proxy loop *)

Module TraceFacts.
Import Activate Vocabulary.

Lemma app_cons_head {A} (pre : list A) x post e l :
  pre ++ x :: post = e :: l ->
  (pre = [] /\ x = e /\ post = l) \/
  (exists pre', pre = e :: pre' /\ pre' ++ x :: post = l).
Proof.
  destruct pre as [|p pre]; simpl; intros H; injection H as H1 H2.
  - left. auto.
  - right. subst. eauto.
Qed.

Lemma app_cons_nil {A} (pre : list A) x post : pre ++ x :: post = [] -> False.
Proof. destruct pre; discriminate. Qed.

(** Splits [H : pre ++ x :: post = e :: l] into its two cases. *)
Ltac head H :=
  let pre' := fresh "pre" in
  let E2 := fresh "E" in let E3 := fresh "E" in
  apply app_cons_head in H;
  destruct H as [(-> & E2 & E3) | (pre' & -> & H)];
  [ try discriminate E2 | ].

(** An occurrence in [l1 ++ l2] lies in [l1] or in [l2]. *)
Lemma locate {A} (l1 : list A) : forall pre x post l2,
  pre ++ x :: post = l1 ++ l2 ->
  (exists l, l1 = pre ++ x :: l /\ post = l ++ l2) \/
  (exists l, pre = l1 ++ l /\ l2 = l ++ x :: post).
Proof.
  induction l1 as [|e l1 IH]; intros pre x post l2 H; simpl in H.
  - right. exists pre. auto.
  - head H.
    + subst. left. exists l1. auto.
    + destruct (IH _ _ _ _ H) as [(l & -> & ->) | (l & -> & ->)]; subst.
      * left. exists l. auto.
      * right. exists l. auto.
Qed.

Section Traces.

Variable bt : Z.

(** The trace of the dial loop is empty or starts with a dial. *)
Lemma dial_loop_starts had st a now tries :
  (snd (dial_loop bt had st a now tries) = [] /\
   fst (dial_loop bt had st a now tries) = StillDialing a now) \/
  exists ok l, snd (dial_loop bt had st a now tries) = EvDial now ok :: l.
Proof.
  destruct tries as [|t rest]; simpl; [left; auto | right].
  destruct (dial_ok t); [eauto|].
  destruct had; [eauto|].
  destruct (bt <? now + dial_took t - st); [eauto|].
  destruct (dial_loop _ _ _ _ _ rest). simpl. eauto.
Qed.

(** A dial that succeeds is the last event of the loop, which then leaves
    by its [break]. *)
Lemma dial_success_last had st tries : forall a now pre b post,
  snd (dial_loop bt had st a now tries) = pre ++ EvDial b true :: post ->
  post = [] /\ exists n, fst (dial_loop bt had st a now tries) = Connected n.
Proof.
  induction tries as [|t rest IH]; intros a now pre b post H; simpl in *.
  - symmetry in H. destruct (app_cons_nil _ _ _ H).
  - destruct (dial_ok t).
    { simpl in *. symmetry in H. head H.
      - subst. eauto.
      - destruct (app_cons_nil _ _ _ H). }
    destruct had.
    { simpl in *. symmetry in H. head H. head H.
      destruct (app_cons_nil _ _ _ H). }
    destruct (bt <? now + dial_took t - st).
    { simpl in *. symmetry in H. head H. head H. head H.
      destruct (app_cons_nil _ _ _ H). }
    specialize (IH (bump_attempt a)
      (now + dial_took t + Z.max 0 (backoff_delay (bump_attempt a)) + oversleep t)).
    destruct (dial_loop _ _ _ _ _ rest) as [r tr]. simpl in *.
    symmetry in H. head H. head H. head H.
    symmetry in H. exact (IH _ _ _ H).
Qed.

(** The loop leaves by [break] only after a dial that succeeded. *)
Lemma dial_connected_event had st tries : forall a now n,
  fst (dial_loop bt had st a now tries) = Connected n ->
  exists b, In (EvDial b true) (snd (dial_loop bt had st a now tries)).
Proof.
  induction tries as [|t rest IH]; intros a now n H; simpl in *.
  - discriminate.
  - destruct (dial_ok t); [simpl; eauto|].
    destruct had; [discriminate|].
    destruct (bt <? now + dial_took t - st); [discriminate|].
    specialize (IH (bump_attempt a)
      (now + dial_took t + Z.max 0 (backoff_delay (bump_attempt a)) + oversleep t) n).
    destruct (dial_loop _ _ _ _ _ rest) as [r tr]. simpl in *.
    destruct (IH H) as [b Hb]. exists b. auto.
Qed.

(** What follows a failed dial when the flag is set. *)
Lemma dial_fail_had st tries a now pre b post :
  snd (dial_loop bt true st a now tries) = pre ++ EvDial b false :: post ->
  post = [EvExit 0] /\ fst (dial_loop bt true st a now tries) = ProcessExit 0.
Proof.
  destruct tries as [|t rest]; simpl; intros H.
  - symmetry in H. destruct (app_cons_nil _ _ _ H).
  - destruct (dial_ok t); simpl in *; symmetry in H; head H.
    + destruct (app_cons_nil _ _ _ H).
    + subst. auto.
    + head H. destruct (app_cons_nil _ _ _ H).
Qed.

(** What follows a failed dial when the flag is not set: the clock is read
    and compared with the deadline, counted from [st]. *)
Lemma dial_fail_fresh st tries : forall a now pre b post,
  snd (dial_loop bt false st a now tries) = pre ++ EvDial b false :: post ->
  after_failed_dial bt st post
    (fst (dial_loop bt false st a now tries) = ProcessExit 0)
    (exists a' n, fst (dial_loop bt false st a now tries) = StillDialing a' n).
Proof.
  induction tries as [|t rest IH]; intros a now pre b post H; simpl in *.
  - symmetry in H. destruct (app_cons_nil _ _ _ H).
  - destruct (dial_ok t).
    { simpl in *. symmetry in H. head H. destruct (app_cons_nil _ _ _ H). }
    destruct (bt <? now + dial_took t - st) eqn:Hlate.
    { simpl in *. symmetry in H. head H.
      - subst. left. exists (now + dial_took t).
        apply Z.ltb_lt in Hlate. auto.
      - head H. head H. destruct (app_cons_nil _ _ _ H). }
    apply Z.ltb_ge in Hlate.
    specialize (IH (bump_attempt a)
      (now + dial_took t + Z.max 0 (backoff_delay (bump_attempt a)) + oversleep t)).
    pose proof (dial_loop_starts false st (bump_attempt a)
      (now + dial_took t + Z.max 0 (backoff_delay (bump_attempt a)) + oversleep t)
      rest) as Hstart.
    destruct (dial_loop _ _ _ _ _ rest) as [r tr]. simpl in *.
    symmetry in H. head H.
    + subst. right.
      exists (now + dial_took t), (backoff_delay (bump_attempt a)), tr.
      repeat split; auto.
      destruct Hstart as [[-> ->] | (ok & l & ->)]; [left | right]; eauto.
    + head H. head H. symmetry in H. exact (IH _ _ _ H).
Qed.

(** After a success, be it of an earlier connection ([had]) or earlier in
    the trace, a failed dial ends the process. *)
Lemma dial_fail_after_success had st tries a now pre b post :
  snd (dial_loop bt had st a now tries) = pre ++ EvDial b false :: post ->
  had = true \/ (exists b', In (EvDial b' true) pre) ->
  post = [EvExit 0] /\ fst (dial_loop bt had st a now tries) = ProcessExit 0.
Proof.
  intros H [-> | [b' Hin]].
  - exact (dial_fail_had _ _ _ _ _ _ _ H).
  - apply in_split in Hin. destruct Hin as (p1 & p2 & ->).
    rewrite <- app_assoc in H. simpl in H.
    apply dial_success_last in H. destruct H as [H _].
    destruct (app_cons_nil _ _ _ H).
Qed.

Lemma accept_fail_after_success armed script : forall had st now pre b post,
  snd (accept_loop bt armed had st now script)
    = pre ++ EvDial b false :: post ->
  had = true \/ (exists b', In (EvDial b' true) pre) ->
  post = [EvExit 0] /\
  fst (accept_loop bt armed had st now script) = Exited 0.
Proof.
  induction script as [|c rest IH]; intros had st now pre b post H Hs;
    destruct armed; simpl in *;
    try (symmetry in H; destruct (app_cons_nil _ _ _ H)).
  - symmetry in H. head H. destruct (app_cons_nil _ _ _ H).
  - destruct (accept_ok c); simpl in *.
    2:{ symmetry in H. head H. head H. head H.
        destruct (app_cons_nil _ _ _ H). }
    pose proof (dial_fail_after_success had st (dials c) 0 (now + accept_took c))
      as Hd.
    destruct (dial_loop bt had st 0 (now + accept_took c) (dials c))
      as [rd trd].
    simpl in Hd.
    assert (Hs' : forall pre1, pre = EvSignal :: EvAccept true :: pre1 ->
              had = true \/ (exists b', In (EvDial b' true) pre1)).
    { intros pre1 ->. destruct Hs as [Hs | [b' [Hb | [Hb | Hb]]]];
        try discriminate; eauto. }
    destruct rd as [n | code | a' n].
    + specialize (IH true st n).
      destruct (accept_loop bt true true st n rest) as [r' tr'].
      simpl in *. symmetry in H. head H. head H.
      apply locate in H. destruct H as [(l & -> & ->) | (l & -> & Hl)].
      * destruct (Hd _ _ _ eq_refl (Hs' _ eq_refl)) as [_ Hrd].
        discriminate.
      * symmetry in Hl. head Hl. symmetry in Hl.
        exact (IH _ _ _ Hl (or_introl eq_refl)).
    + simpl in *. symmetry in H. head H. head H.
      destruct (Hd _ _ _ (eq_sym H) (Hs' _ eq_refl)) as [-> Hrd].
      injection Hrd as ->. auto.
    + simpl in *. symmetry in H. head H. head H.
      destruct (Hd _ _ _ (eq_sym H) (Hs' _ eq_refl)) as [_ Hrd].
      discriminate.
Qed.

Lemma accept_fail_fresh armed script st now pre b post :
  snd (accept_loop bt armed false st now script)
    = pre ++ EvDial b false :: post ->
  (forall b', ~ In (EvDial b' true) pre) ->
  after_failed_dial bt st post
    (fst (accept_loop bt armed false st now script) = Exited 0)
    (exists a n, fst (accept_loop bt armed false st now script) = Dialing a n).
Proof.
  intros H Hnone.
  destruct script as [|c rest]; destruct armed; simpl in *;
    try (symmetry in H; destruct (app_cons_nil _ _ _ H)).
  - symmetry in H. head H. destruct (app_cons_nil _ _ _ H).
  - destruct (accept_ok c); simpl in *.
    2:{ symmetry in H. head H. head H. head H.
        destruct (app_cons_nil _ _ _ H). }
    pose proof (dial_fail_fresh st (dials c) 0 (now + accept_took c)) as Hd.
    pose proof (dial_connected_event false st (dials c) 0 (now + accept_took c))
      as Hc.
    destruct (dial_loop bt false st 0 (now + accept_took c) (dials c))
      as [rd trd].
    simpl in Hd, Hc.
    destruct rd as [n | code | a' n].
    + destruct (accept_loop bt true true st n rest) as [r' tr'].
      simpl in *. symmetry in H. head H. head H.
      apply locate in H. destruct H as [(l & -> & ->) | (l & -> & Hl)].
      * destruct (Hd _ _ _ eq_refl)
          as [(clk & _ & _ & Hrd) | (clk & d & post' & Hle & -> & Hnext)];
          [discriminate|].
        right. exists clk, d, (post' ++ EvSpawn :: tr').
        repeat split; auto. right.
        destruct Hnext as [[_ (? & ? & Hrd)] | (b' & ok & post'' & ->)];
          [discriminate|].
        simpl. eauto.
      * destruct (Hc n eq_refl) as [b' Hb']. exfalso.
        apply (Hnone b'). simpl. right. right. apply in_or_app. auto.
    + simpl in *. symmetry in H. head H. head H.
      destruct (Hd _ _ _ (eq_sym H))
        as [(clk & Hlt & -> & Hrd) | (clk & d & post' & Hle & -> & Hnext)].
      * injection Hrd as ->. left. eauto.
      * right. exists clk, d, post'. repeat split; auto. right.
        destruct Hnext as [[_ (? & ? & Hrd)] | Hnext]; [discriminate | auto].
    + simpl in *. symmetry in H. head H. head H.
      destruct (Hd _ _ _ (eq_sym H))
        as [(clk & Hlt & -> & Hrd) | (clk & d & post' & Hle & -> & Hnext)];
        [discriminate|].
      right. exists clk, d, post'. repeat split; auto.
      destruct Hnext as [[-> _] | Hnext]; [left | right]; eauto.
Qed.

End Traces.

(** C2.  In every run of the proxy loop, a failed dial that comes after a
    dial that succeeded is followed by [os.Exit(0)] and nothing else: no
    clock is read, nothing is slept, no dial is made again. *)
Theorem regression_exits_at_once bt listener armed now script pre b post :
  snd (startTCPProxy bt listener armed now script)
    = pre ++ EvDial b false :: post ->
  (exists b', In (EvDial b' true) pre) ->
  post = [EvExit 0] /\
  fst (startTCPProxy bt listener armed now script) = Exited 0.
Proof.
  unfold startTCPProxy. destruct listener; simpl.
  - intros H Hs. apply (accept_fail_after_success bt _ _ _ _ _ _ _ _ H). auto.
  - intros H. symmetry in H. destruct (app_cons_nil _ _ _ H).
Qed.

(** A first client is served; for the second one the backend is gone. *)
Lemma regression_exits_at_once_witness :
  snd (startTCPProxy (30 * Second) true true 0
         [Incoming 5 true [DialTry 1 true 0];
          Incoming 7 true [DialTry 1 false 0; DialTry 1 true 0]])
    = [EvSignal; EvAccept true; EvDial 5 true; EvSpawn;
       EvSignal; EvAccept true] ++ EvDial 13 false :: [EvExit 0] /\
  fst (startTCPProxy (30 * Second) true true 0
         [Incoming 5 true [DialTry 1 true 0];
          Incoming 7 true [DialTry 1 false 0; DialTry 1 true 0]])
    = Exited 0.
Proof.
  split; [reflexivity|].
  apply (regression_exits_at_once (30 * Second) true true 0 _
           [EvSignal; EvAccept true; EvDial 5 true; EvSpawn;
            EvSignal; EvAccept true] 13 [EvExit 0]).
  - reflexivity.
  - exists 5. simpl. auto.
Defined.

(** C4, as the code has it.  A failed dial made before any dial succeeded
    is followed by a reading [clk] of the clock; the process exits, with
    status 0, exactly when [clk - now] exceeds the back-end timeout, [now]
    being the clock when [startTCPProxy] was entered, before the first
    accept; otherwise the loop sleeps and dials again. *)
Theorem deadline_counts_from_proxy_start bt listener armed now script
    pre b post :
  snd (startTCPProxy bt listener armed now script)
    = pre ++ EvDial b false :: post ->
  (forall b', ~ In (EvDial b' true) pre) ->
  (exists clk,
     bt < clk - now /\ post = [EvSince clk; EvExit 0] /\
     fst (startTCPProxy bt listener armed now script) = Exited 0) \/
  (exists clk d post',
     clk - now <= bt /\ post = EvSince clk :: EvSleep d :: post' /\
     ((post' = [] /\
       exists a n,
         fst (startTCPProxy bt listener armed now script) = Dialing a n) \/
      exists b' ok post'', post' = EvDial b' ok :: post'')).
Proof.
  unfold startTCPProxy. destruct listener; simpl.
  - intros H Hnone. exact (accept_fail_fresh bt _ _ _ _ _ _ _ H Hnone).
  - intros H. symmetry in H. destruct (app_cons_nil _ _ _ H).
Qed.

(** The back end stays down: three dials are retried, the fourth is past a
    deadline of five seconds. *)
Lemma deadline_counts_from_proxy_start_witness :
  exists clk,
    5 * Second < clk - 0 /\
    [EvSince 7004000000; EvExit 0] = [EvSince clk; EvExit 0] /\
    fst (startTCPProxy (5 * Second) true true 0
           [Incoming 0 true (List.repeat (DialTry Millisecond false 0) 12)])
      = Exited 0.
Proof.
  destruct (deadline_counts_from_proxy_start (5 * Second) true true 0
              [Incoming 0 true (List.repeat (DialTry Millisecond false 0) 12)]
              [EvSignal; EvAccept true;
               EvDial 0 false; EvSince 1000000; EvSleep 1000000000;
               EvDial 1001000000 false; EvSince 1002000000;
               EvSleep 2000000000;
               EvDial 3002000000 false; EvSince 3003000000;
               EvSleep 4000000000]
              7003000000 [EvSince 7004000000; EvExit 0])
    as [H | (clk & d & post' & _ & H & _)].
  - reflexivity.
  - intros b' Hin. simpl in Hin.
    repeat (destruct Hin as [Hin | Hin]; [discriminate Hin|]).
    exact Hin.
  - exact H.
  - discriminate H.
Defined.

(** C4 as stated fails: the client arrives one minute after the proxy
    started, the first dial of the process begins then and fails within a
    millisecond, and the process exits although the back-end timeout is
    thirty seconds. *)
Lemma deadline_not_from_first_dial :
  startTCPProxy (30 * Second) true true 0
    [Incoming (60 * Second) true [DialTry Millisecond false 0]]
    = (Exited 0,
       [EvSignal; EvAccept true; EvDial (60 * Second) false;
        EvSince (60 * Second + Millisecond); EvExit 0]) /\
  ~ 30 * Second < (60 * Second + Millisecond) - 60 * Second.
Proof.
  split.
  - reflexivity.
  - vm_compute. discriminate.
Qed.

End TraceFacts.

(** ** The idle supervisor *)

Module SupervisorFacts.
Import Activate Vocabulary.

Lemma select_lively timeout w :
  lively timeout w -> select_wait timeout w = CaseActivity.
Proof.
  intros (gap & Hw & Hgap). unfold select_wait. rewrite Hw.
  destruct (gap <? Z.max 0 timeout) eqn:E; [reflexivity|].
  apply Z.ltb_ge in E. lia.
Qed.

Lemma select_silent timeout w :
  silent timeout w -> select_wait timeout w = CaseTimer.
Proof.
  unfold silent, select_wait.
  destruct (next_signal w) as [gap|]; [|reflexivity].
  intros Hgap.
  destruct (gap <? Z.max 0 timeout) eqn:E1.
  { apply Z.ltb_lt in E1. lia. }
  destruct (Z.max 0 timeout <? gap) eqn:E2; [reflexivity|].
  apply Z.ltb_ge in E2. lia.
Qed.

(** While the signals keep coming the supervisor stays in its loop and
    whatever comes next is handled as if it came first. *)
Lemma supervisor_lively timeout stop_ok waits : forall rest,
  Forall (lively timeout) waits ->
  terminateWithoutActivity timeout stop_ok (waits ++ rest)
    = (fst (terminateWithoutActivity timeout stop_ok rest),
       List.repeat SupActivity (List.length waits)
         ++ snd (terminateWithoutActivity timeout stop_ok rest)).
Proof.
  induction waits as [|w waits IH]; intros rest Hall; simpl.
  - destruct (terminateWithoutActivity timeout stop_ok rest). reflexivity.
  - inversion Hall as [|w' waits' Hw Hws]; subst.
    rewrite (select_lively _ _ Hw), (IH rest Hws). reflexivity.
Qed.

Lemma stops_activity n tr : stops (List.repeat SupActivity n ++ tr) = stops tr.
Proof. induction n as [|n IH]; simpl; auto. Qed.

(** C5, as the code has it.  While every signal comes less than the idle
    timeout after the supervisor started to wait for it, [stop] is not
    called and the supervisor keeps waiting.  When then no signal comes
    within the idle timeout, [stop] is called once and the process ends:
    with status 0 when the call returns, with the status 1 of [log.Fatal]
    when the call fails. *)
Theorem supervisor_stops_once timeout stop_ok waits w rest :
  Forall (lively timeout) waits ->
  (terminateWithoutActivity timeout stop_ok waits
     = (Armed, List.repeat SupActivity (List.length waits)) /\
   stops (snd (terminateWithoutActivity timeout stop_ok waits)) = 0%nat) /\
  (silent timeout w ->
   stops (snd (terminateWithoutActivity timeout stop_ok (waits ++ w :: rest)))
     = 1%nat /\
   fst (terminateWithoutActivity timeout stop_ok (waits ++ w :: rest))
     = SupExited (if stop_ok then 0 else 1)).
Proof.
  intros Hall. split.
  - pose proof (supervisor_lively timeout stop_ok waits [] Hall) as H.
    rewrite app_nil_r in H. simpl in H. rewrite app_nil_r in H.
    rewrite H. split; [reflexivity|]. simpl.
    pose proof (stops_activity (List.length waits) []) as Hs.
    rewrite app_nil_r in Hs. exact Hs.
  - intros Hw.
    rewrite (supervisor_lively timeout stop_ok waits (w :: rest) Hall).
    simpl. rewrite (select_silent _ _ Hw), stops_activity.
    destruct stop_ok; simpl; auto.
Qed.

(** Idle timeout of two seconds: two signals, then silence. *)
Lemma supervisor_stops_once_witness :
  (terminateWithoutActivity (2 * Second) true
     [Wait (Arrives Second) false; Wait (Arrives 5) false]
     = (Armed, List.repeat SupActivity 2) /\
   stops (snd (terminateWithoutActivity (2 * Second) true
                 [Wait (Arrives Second) false; Wait (Arrives 5) false]))
     = 0%nat) /\
  stops (snd (terminateWithoutActivity (2 * Second) true
                [Wait (Arrives Second) false; Wait (Arrives 5) false;
                 Wait Never false])) = 1%nat /\
  fst (terminateWithoutActivity (2 * Second) true
         [Wait (Arrives Second) false; Wait (Arrives 5) false;
          Wait Never false]) = SupExited 0.
Proof.
  destruct (supervisor_stops_once (2 * Second) true
              [Wait (Arrives Second) false; Wait (Arrives 5) false]
              (Wait Never false) []) as [H1 H2].
  - repeat (apply List.Forall_cons;
            [eexists; split; [reflexivity | vm_compute; reflexivity]|]).
    apply List.Forall_nil.
  - split; [exact H1 | apply H2; exact I].
Defined.

(** C5 as stated fails when the call of [stop] fails: [stop] is called
    once, but the process ends in [log.Fatal], with status 1. *)
Lemma idle_exit_with_failing_stop :
  terminateWithoutActivity (2 * Second) false [Wait Never false]
    = (SupExited 1, [SupStop]) /\
  SupExited 1 <> SupExited 0.
Proof. split; [reflexivity | discriminate]. Qed.

End SupervisorFacts.

(** ** The byte forwarder *)

Module ForwarderFacts.
Import Activate Vocabulary.

(** [buffer[:i]] after a read is what the read stored. *)
Lemma take_store buffer data :
  take (List.length data) (store buffer data) = data.
Proof. unfold store. apply take_app_length. Qed.

Lemma forward_trace reads : forall buffer,
  forward buffer reads
    = (if List.existsb read_err reads then FwdReturned else FwdReading,
       List.flat_map (fun r => [FwdSignal; FwdWrite (read_data r)])
                     (before_error reads)).
Proof.
  induction reads as [|r rest IH]; intros buffer; simpl.
  - reflexivity.
  - destruct (read_err r); simpl; [reflexivity|].
    rewrite IH, take_store. reflexivity.
Qed.

(** C7.  The forwarder does, for each read that returns without error and
    in the order of the reads, one send on the activity channel and then
    one write of exactly the bytes read; at the first read that reports an
    error, EOF included, it returns, having done nothing more. *)
Theorem forwarder_signals_then_writes reads :
  snd (proxyNetworkConnections reads)
    = List.flat_map (fun r => [FwdSignal; FwdWrite (read_data r)])
                    (before_error reads) /\
  fst (proxyNetworkConnections reads)
    = (if List.existsb read_err reads then FwdReturned else FwdReading).
Proof.
  unfold proxyNetworkConnections. rewrite forward_trace. auto.
Qed.

End ForwarderFacts.

(** ** Exit statuses *)

Module ExitFacts.
Import Activate Vocabulary.

Lemma dial_loop_exit_code bt had st tries : forall a now code,
  fst (dial_loop bt had st a now tries) = ProcessExit code -> code = 0.
Proof.
  induction tries as [|t rest IH]; intros a now code; simpl.
  - discriminate.
  - destruct (dial_ok t); [discriminate|].
    destruct had; [intros [= <-]; reflexivity|].
    destruct (bt <? now + dial_took t - st); [intros [= <-]; reflexivity|].
    specialize (IH (bump_attempt a)
      (now + dial_took t + Z.max 0 (backoff_delay (bump_attempt a)) + oversleep t)
      code).
    destruct (dial_loop _ _ _ _ _ rest). exact IH.
Qed.

Lemma accept_loop_exit_code bt armed script : forall had st now code,
  fst (accept_loop bt armed had st now script) = Exited code -> code = 0.
Proof.
  induction script as [|c rest IH]; intros had st now code;
    destruct armed; simpl; try discriminate.
  destruct (accept_ok c); simpl; [|discriminate].
  pose proof (dial_loop_exit_code bt had st (dials c) 0 (now + accept_took c))
    as Hd.
  destruct (dial_loop bt had st 0 (now + accept_took c) (dials c)) as [rd trd].
  destruct rd as [n | code' | a' n]; simpl in *.
  - specialize (IH true st n code).
    destruct (accept_loop bt true true st n rest). exact IH.
  - intros [= <-]. exact (Hd code' eq_refl).
  - discriminate.
Qed.

Lemma supervisor_exit_code timeout stop_ok waits : forall code,
  fst (terminateWithoutActivity timeout stop_ok waits) = SupExited code ->
  code = if stop_ok then 0 else 1.
Proof.
  induction waits as [|w rest IH]; intros code; simpl.
  - discriminate.
  - destruct (select_wait timeout w).
    + destruct (terminateWithoutActivity timeout stop_ok rest). exact (IH code).
    + destruct stop_ok; simpl; intros [= <-]; reflexivity.
Qed.

(** C6, as the code has it.  The process ends with status 0 when the idle
    timer fired and the call of [stop] returned, and when a dial failed for
    good (after an earlier success, or past the back-end timeout); it ends
    with status 1, through [log.Fatal], when the check of the activation
    environment fails at startup. *)
Theorem exit_statuses timeout bt armed had st now waits script w code :
  (fst (terminateWithoutActivity timeout true waits) = SupExited code ->
   code = 0) /\
  (fst (accept_loop bt armed had st now script) = Exited code -> code = 0) /\
  (activated w = false -> main timeout bt w = (Exited 1, [])).
Proof.
  split; [|split].
  - apply (supervisor_exit_code timeout true).
  - apply accept_loop_exit_code.
  - intros H. unfold main. rewrite H. reflexivity.
Qed.

(** The three ways out, each on a small run. *)
Lemma exit_statuses_witness :
  (fst (terminateWithoutActivity (2 * Second) true [Wait Never false])
     = SupExited 0 /\
   fst (accept_loop (30 * Second) true false 0 0
          [Incoming 0 true [DialTry (31 * Second) false 0]]) = Exited 0 /\
   activated (World "" 4242 true true true 0 []) = false) /\
  main (2 * Second) (30 * Second)
       (World "" 4242 true true true 0 []) = (Exited 1, []).
Proof.
  destruct (exit_statuses (2 * Second) (30 * Second) true false 0 0
              [Wait Never false]
              [Incoming 0 true [DialTry (31 * Second) false 0]]
              (World "" 4242 true true true 0 []) 0) as (H1 & H2 & H3).
  split.
  - repeat split; reflexivity.
  - apply H3. reflexivity.
Defined.

(** C6 as stated fails for the startup check: without LISTEN_PID in the
    environment the process ends with status 1. *)
Lemma startup_check_exits_with_failure :
  main 0 (30 * Second) (World "" 4242 true true true 0 []) = (Exited 1, []) /\
  Exited 1 <> Exited 0.
Proof. split; [reflexivity | discriminate]. Qed.

End ExitFacts.

(** ** The dial loop of the older program *)

Module ActivatorFacts.
Import Activator.

(** What [n] failed dials leave in the trace. *)
Lemma dial_loop_failures rest : forall n,
  dial_loop 0 (List.repeat false n ++ rest)
    = (fst (dial_loop 0 rest),
       List.concat (List.repeat [EvDial false; EvSleep (100 * Millisecond)] n)
         ++ snd (dial_loop 0 rest)).
Proof.
  induction n as [|n IH]; simpl.
  - destruct rest as [|[|] rest]; simpl; try reflexivity.
    destruct (dial_loop 0 rest); reflexivity.
  - simpl in IH. rewrite IH. reflexivity.
Qed.

(** The counter is 0 when the loop is left, and the loop is left by
    [break] only. *)
Lemma dial_loop_leaves_connected tries :
  fst (dial_loop 0 tries) = LoopLeft 0 true \/
  fst (dial_loop 0 tries) = StillDialing 0.
Proof.
  induction tries as [|[|] rest IH]; simpl; auto.
  destruct (dial_loop 0 rest). exact IH.
Qed.

Lemma dial_loop_no_abandon tries : ~ In EvAbandon (snd (dial_loop 0 tries)).
Proof.
  induction tries as [|[|] rest IH]; simpl.
  - tauto.
  - intros [H | []]. discriminate.
  - destruct (dial_loop 0 rest). simpl in *.
    intros [H | [H | H]]; try discriminate. exact (IH H).
Qed.

Lemma accept_loop_no_abandon script : ~ In EvAbandon (snd (accept_loop script)).
Proof.
  induction script as [|[[|] tries] rest IH]; simpl.
  - intros [H | []]. discriminate.
  - pose proof (dial_loop_no_abandon tries) as Hd.
    pose proof (dial_loop_leaves_connected tries) as Hc.
    destruct (dial_loop 0 tries) as [[c b | c] tr]; simpl in *.
    + destruct Hc as [[= -> ->] | Hc]; [|discriminate].
      destruct (accept_loop rest) as [r tr']. simpl in *.
      intros [H | [H | H]]; try discriminate.
      apply in_app_or in H.
      destruct H as [H | [H | H]]; try discriminate; tauto.
    + intros [H | [H | H]]; try discriminate. tauto.
  - intros [H | [H | [H | []]]]; discriminate.
Qed.

(** C10.  In the older program [tryCount] is 0 whenever the dial loop is
    left or waits, the loop is left only by a dial that succeeded, the
    branch that abandons the client is never taken, and while the dials
    fail each one is followed by a sleep of 100ms and one more dial, however
    many have failed. *)
Theorem old_dial_loop_never_gives_up tries script n rest :
  (fst (dial_loop 0 tries) = LoopLeft 0 true \/
   fst (dial_loop 0 tries) = StillDialing 0) /\
  ~ In EvAbandon (snd (accept_loop script)) /\
  dial_loop 0 (List.repeat false n)
    = (StillDialing 0,
       List.concat (List.repeat [EvDial false; EvSleep (100 * Millisecond)] n)) /\
  dial_loop 0 (List.repeat false n ++ true :: rest)
    = (LoopLeft 0 true,
       List.concat (List.repeat [EvDial false; EvSleep (100 * Millisecond)] n)
         ++ [EvDial true]).
Proof.
  split; [apply dial_loop_leaves_connected|].
  split; [apply accept_loop_no_abandon|].
  split.
  - pose proof (dial_loop_failures [] n) as H.
    rewrite !app_nil_r in H. exact H.
  - apply dial_loop_failures.
Qed.

End ActivatorFacts.

(** ** The goroutines together *)

Module InterleavingFacts.
Import Interleaving Vocabulary.

Lemma each_event_nil {E} (P : list E -> E -> Prop) : each_event P [].
Proof. intros [|? ?] x post H; discriminate. Qed.

Lemma each_event_snoc {E} (P : list E -> E -> Prop) lg e :
  each_event P lg -> P lg e -> each_event P (lg ++ [e]).
Proof.
  intros Hlg He pre x post H.
  destruct (decide (post = [])) as [-> | Hne].
  - apply app_inj_tail in H. destruct H as [-> ->]. exact He.
  - destruct (exists_last Hne) as (post' & e' & ->).
    rewrite app_comm_cons, app_assoc in H.
    apply app_inj_tail in H. destruct H as [-> _].
    eapply Hlg. reflexivity.
Qed.

Lemma count_snoc a lg e :
  count a (lg ++ [e]) = (count a lg + count a [e])%nat.
Proof.
  induction lg as [|x lg IH]; simpl; [lia|]. rewrite IH. simpl. lia.
Qed.

Ltac log_facts :=
  rewrite ?count_snoc; simpl; auto; try lia;
  try (intros; discriminate);
  repeat apply each_event_snoc; auto; simpl;
  try (intros; discriminate);
  try (rewrite ?count_snoc; simpl; intros; lia).

Lemma inv_init cfg : Inv cfg init.
Proof.
  split; simpl; auto; try discriminate; apply each_event_nil.
Qed.

Lemma inv_step cfg l s s' : Inv cfg s -> step cfg l s = Some s' -> Inv cfg s'.
Proof.
  intros [I1 I2 I3 I4 I5 I6 I9 I7 I8] H.
  destruct s as [p pc rc sg h fs lg]. unfold step in H. simpl in *.
  destruct p; [|discriminate].
  destruct l as [ok late | from | | stop_ok | i ok]; simpl in H.
  - unfold step_main in H; simpl in H.
    destruct pc; repeat case_match; simplify_eq; simpl in *.
    all: split; simpl; log_facts.
    all: try (intros; rewrite ?I3, ?I4, ?I6 by auto; lia).
    all: try (intros _; apply I3; auto).
    all: try (intros _; apply Z.eqb_neq;
              destruct (timeout cfg =? 0); simpl in *; congruence).
    all: try (intros Hs; pose proof (I1 (I9 Hs)) as Hz;
              apply Z.eqb_neq in Hz; rewrite Hz; reflexivity).
  - unfold step_handoff in H; simpl in H.
    destruct rc, sg; simpl in H; try discriminate.
    destruct from; repeat case_match; simplify_eq; simpl in *.
    all: split; simpl; log_facts.
    all: intros; rewrite ?I3, ?I4, ?I6 by auto; lia.
  - unfold step_timer in H; simpl in H.
    destruct rc, sg; simpl in H; try discriminate.
    simplify_eq; simpl in *.
    split; simpl; log_facts.
    all: try (intros; rewrite ?count_snoc; simpl;
              rewrite ?I3, ?I4, ?I6 by auto; lia).
    intros _; repeat split; eauto.
  - unfold step_stopped in H; simpl in H.
    destruct sg; simpl in H; [|discriminate].
    repeat case_match; simplify_eq; simpl in *.
    all: split; simpl; log_facts.
    all: try (intros; rewrite ?count_snoc; simpl;
              rewrite ?I3, ?I4, ?I6 by auto; lia).
  - unfold step_read in H; simpl in H.
    repeat case_match; simplify_eq; simpl in *.
    all: split; simpl; log_facts.
Qed.

Lemma inv_exec cfg ls : forall s s',
  Inv cfg s -> exec cfg ls s = Some s' -> Inv cfg s'.
Proof.
  induction ls as [|l ls IH]; intros s s' Hs H; simpl in H.
  - congruence.
  - destruct (step cfg l s) as [s1|] eqn:E; [|discriminate].
    exact (IH _ _ (inv_step _ _ _ _ Hs E) H).
Qed.

Lemma quiet_init : Quiet init.
Proof. split; simpl; auto; split; discriminate. Qed.

Lemma quiet_step cfg l s s' :
  timeout cfg = 0 -> Quiet s -> step cfg l s = Some s' -> Quiet s'.
Proof.
  intros Ht [Q1 Q6 Q2 [Q3 Q3'] Q4 Q5] H.
  destruct s as [p pc rc sg h fs lg]. unfold step in H. simpl in *.
  subst rc sg fs.
  destruct p; [|discriminate].
  destruct l as [ok late | from | | stop_ok | i ok]; simpl in H;
    try discriminate.
  unfold step_main in H; simpl in H. rewrite Ht in H.
  destruct pc; repeat case_match; simplify_eq; simpl in *.
  all: split; simpl; rewrite ?count_snoc; simpl; auto; try lia.
Qed.

Lemma quiet_exec cfg ls : forall s s',
  timeout cfg = 0 -> Quiet s -> exec cfg ls s = Some s' -> Quiet s'.
Proof.
  induction ls as [|l ls IH]; intros s s' Ht Hs H; simpl in H.
  - congruence.
  - destruct (step cfg l s) as [s1|] eqn:E; [|discriminate].
    exact (IH _ _ Ht (quiet_step _ _ _ _ Ht Hs E) H).
Qed.

Lemma quiet_stuck cfg s :
  Quiet s -> at_main s = AtSend -> forall l, step cfg l s = None.
Proof.
  intros [Q1 Q6 Q2 _ _ _] Hpc l.
  destruct s as [p pc rc sg h fs lg]. simpl in *. subst.
  unfold step. simpl. destruct p; [|reflexivity].
  destruct l; reflexivity.
Qed.

(** C1 fails on the code.  With an idle timeout of zero nothing receives
    on the activity channel: in no run is a value handed over or a
    connection accepted, no forwarder exists, and once the main goroutine
    stands at the send of line 101 no goroutine can move at all. *)
Theorem no_supervisor_no_accept cfg ls s :
  timeout cfg = 0 ->
  exec cfg ls init = Some s ->
  count ActSend (log s) = 0%nat /\
  count ActAccept (log s) = 0%nat /\
  forwarders s = [] /\
  (at_main s = AtSend -> forall l, step cfg l s = None).
Proof.
  intros Ht H.
  pose proof (quiet_exec cfg ls init s Ht quiet_init H) as Q.
  destruct Q as [Q1 Q6 Q2 Q3 Q4 Q5].
  repeat split; auto.
  intros Hpc. apply quiet_stuck; [split; auto | exact Hpc].
Qed.

(** The default of the flag, a proper activation, every call succeeding:
    the main goroutine reaches line 101 and stays there. *)
Lemma no_supervisor_no_accept_witness :
  exists s,
    exec (Config 0 (Activate.World "4242" 4242 true true true 0 []))
         [StepMain true false; StepMain true false; StepMain true false;
          StepMain true false; StepMain true false] init = Some s /\
    at_main s = AtSend /\
    count ActAccept (log s) = 0%nat /\
    forall l,
      step (Config 0 (Activate.World "4242" 4242 true true true 0 [])) l s
        = None.
Proof.
  eexists. split; [reflexivity|].
  destruct (no_supervisor_no_accept
              (Config 0 (Activate.World "4242" 4242 true true true 0 []))
              [StepMain true false; StepMain true false; StepMain true false;
               StepMain true false; StepMain true false] _
              eq_refl eq_refl) as (_ & Ha & _ & Hstuck).
  split; [reflexivity|]. split; [exact Ha|]. apply Hstuck. reflexivity.
Defined.

(** C8, as the code has it.  In every run [start] is called at most once;
    it has been called once when the main goroutine is in the proxy loop,
    and once before every accept.  [stop] is called at most once, by the
    supervisor only, with a non-zero idle timeout only, and right after the
    timer case of its select was taken. *)
Theorem start_once_before_accept cfg ls s :
  exec cfg ls init = Some s ->
  (count ActStart (log s) <= 1)%nat /\
  (in_loop (at_main s) = true -> count ActStart (log s) = 1%nat) /\
  (forall pre t post,
     log s = pre ++ (t, ActAccept) :: post -> count ActStart pre = 1%nat) /\
  (count ActStop (log s) <= 1)%nat /\
  (forall pre t post,
     log s = pre ++ (t, ActStop) :: post ->
     t = Supervisor /\ timeout cfg <> 0 /\
     exists pre', pre = pre' ++ [(Supervisor, ActTimer)]).
Proof.
  intros H.
  destruct (inv_exec cfg ls init s (inv_init cfg) H)
    as [I1 I2 I3 I4 I5 I6 I9 I7 I8].
  split; [exact I2|]. split; [exact I3|]. split; [|split; [exact I7|]].
  - intros pre t post E. exact (I5 pre (t, ActAccept) post E eq_refl).
  - intros pre t post E. exact (I8 pre (t, ActStop) post E eq_refl).
Qed.

(** One client is served, then the idle timer fires and the unit is
    stopped. *)
Lemma start_once_before_accept_witness :
  exists s,
    exec (Config (2 * Second)
                 (Activate.World "4242" 4242 true true true 0 []))
         [StepMain true false; StepMain true false; StepMain true false;
          StepMain true false; StepMain true false; Handoff Main;
          StepMain true false; StepMain true false; TimerFires;
          StopReturns true]
         init = Some s /\
    count ActStart (log s) = 1%nat /\
    count ActStop (log s) = 1%nat /\
    (forall pre t post,
       log s = pre ++ (t, ActAccept) :: post -> count ActStart pre = 1%nat).
Proof.
  eexists. split; [vm_compute; reflexivity|].
  split; [reflexivity|]. split; [reflexivity|].
  refine (proj1 (proj2 (proj2 (start_once_before_accept
            (Config (2 * Second)
                    (Activate.World "4242" 4242 true true true 0 []))
            [StepMain true false; StepMain true false; StepMain true false;
             StepMain true false; StepMain true false; Handoff Main;
             StepMain true false; StepMain true false; TimerFires;
             StopReturns true]
            _ _)))).
  vm_compute. reflexivity.
Defined.

(** C8 as stated fails for a run that ends at startup: without LISTEN_PID
    the process is over before [start] is called. *)
Lemma no_start_without_activation :
  exec (Config (2 * Second) (Activate.World "" 4242 true true true 0 []))
       [StepMain true false] init
    = Some (State (Dead 1) AtCheckEnv false false false []
                  [(Main, ActExit 1)]) /\
  count ActStart [(Main, ActExit 1)] <> 1%nat.
Proof. split; [reflexivity | discriminate]. Qed.

End InterleavingFacts.

(** ** The forwarders of a pair *)

Module ConnectionsFacts.
Import Connections Vocabulary.

Lemma conn_read_keeps c data c' :
  conn_read c = Gets data c' -> closed_here c' = closed_here c.
Proof.
  unfold conn_read. destruct (closed_here c) eqn:E; [discriminate|].
  destruct (inbox c) as [|[d|] rest]; try discriminate.
  intros [= _ <-]. simpl. auto.
Qed.

Lemma conn_write_keeps c data :
  closed_here (conn_write c data) = closed_here c.
Proof.
  unfold conn_write. destruct (closed_here c) eqn:E; [auto|].
  destruct (room c); simpl; auto.
Qed.

(** A backend that neither sends nor closes keeps its forwarder in [Read]
    whatever the other forwarder does. *)
Lemma silent_backend_keeps_task sched : forall p,
  inbox (connBackend p) = [] ->
  closed_here (connBackend p) = false ->
  task_from_backend (run_pair sched p) = task_from_backend p.
Proof.
  induction sched as [|d sched IH]; intros p Hin Hcl; simpl; [reflexivity|].
  destruct (step_pair d p) as [p'|] eqn:E; [|auto].
  assert (H : inbox (connBackend p') = [] /\
              closed_here (connBackend p') = false /\
              task_from_backend p' = task_from_backend p).
  { destruct d; simpl in E.
    - destruct (task_from_client p); [|discriminate].
      destruct (conn_read (connOutwards p)); simplify_eq; simpl; auto.
      unfold conn_write. rewrite Hcl. destruct (room (connBackend p)); auto.
    - destruct (task_from_backend p); [|discriminate].
      unfold conn_read in E. rewrite Hcl, Hin in E. discriminate. }
  destruct H as (H1 & H2 & H3). rewrite (IH p' H1 H2). exact H3.
Qed.

(** C9, as the code has it.  A turn of a forwarder changes its own pair
    only.  The forwarder whose read fails, by EOF or otherwise, returns;
    a task ends in no other way, so the forwarder of the other direction
    goes on until a read of its own fails; and no turn closes a
    connection. *)
Theorem forwarder_ends_alone ps i d p p' e :
  ps !! i = Some p ->
  step_pair d p = Some p' ->
  step_pairs i d ps = Some (<[i := p']> ps) /\
  (forall j, j <> i -> (<[i := p']> ps) !! j = ps !! j) /\
  (conn_read (source d p) = Fails -> task_of d p' = Finished) /\
  (task_of e p = Running -> task_of e p' = Finished ->
   e = d /\ conn_read (source d p) = Fails) /\
  closed_here (connOutwards p') = closed_here (connOutwards p) /\
  closed_here (connBackend p') = closed_here (connBackend p).
Proof.
  intros Hi Hstep. split; [|split].
  - unfold step_pairs. rewrite Hi, Hstep. reflexivity.
  - intros j Hj. apply list_lookup_insert_ne. auto.
  - destruct d; simpl in *.
    + destruct (task_from_client p) eqn:Et; [|discriminate].
      destruct (conn_read (connOutwards p)) as [| |data c] eqn:Er;
        simplify_eq; simpl.
      * repeat split; auto;
          destruct e; unfold task_of in *; simpl in *; congruence.
      * pose proof (conn_read_keeps _ _ _ Er). rewrite conn_write_keeps.
        repeat split; auto; try discriminate;
          destruct e; unfold task_of in *; simpl in *; congruence.
    + destruct (task_from_backend p) eqn:Et; [|discriminate].
      destruct (conn_read (connBackend p)) as [| |data c] eqn:Er;
        simplify_eq; simpl.
      * repeat split; auto;
          destruct e; unfold task_of in *; simpl in *; congruence.
      * pose proof (conn_read_keeps _ _ _ Er). rewrite conn_write_keeps.
        repeat split; auto; try discriminate;
          destruct e; unfold task_of in *; simpl in *; congruence.
Qed.

(** Two pairs; the client of the first one closes. *)
Lemma forwarder_ends_alone_witness :
  step_pairs 0 FromClient
    [Pair (Conn [Closes] false [] []) (Conn [] false [] []) Running Running;
     Pair (Conn [] false [] []) (Conn [] false [] []) Running Running]
    = Some
        [Pair (Conn [Closes] false [] []) (Conn [] false [] []) Finished Running;
         Pair (Conn [] false [] []) (Conn [] false [] []) Running Running] /\
  ([Pair (Conn [Closes] false [] []) (Conn [] false [] []) Finished Running;
    Pair (Conn [] false [] []) (Conn [] false [] []) Running Running] !! 1%nat
   = Some (Pair (Conn [] false [] []) (Conn [] false [] []) Running Running)).
Proof.
  destruct (forwarder_ends_alone
              [Pair (Conn [Closes] false [] []) (Conn [] false [] []) Running Running;
               Pair (Conn [] false [] []) (Conn [] false [] []) Running Running]
              0 FromClient
              (Pair (Conn [Closes] false [] []) (Conn [] false [] []) Running Running)
              (Pair (Conn [Closes] false [] []) (Conn [] false [] []) Finished Running)
              FromBackend eq_refl eq_refl) as (H1 & H2 & _).
  split; [exact H1|]. apply (H2 1%nat). lia.
Defined.

(** C9 as stated fails: the client closes while the backend is silent.
    The forwarder that reads the client returns; the other one stays in
    its [Read], and neither connection is closed by the proxy. *)
Lemma client_close_leaves_the_other_task :
  run_pair [FromClient; FromBackend; FromBackend]
    (Pair (Conn [Closes] false [] []) (Conn [] false [] []) Running Running)
    = Pair (Conn [Closes] false [] []) (Conn [] false [] []) Finished Running /\
  step_pair FromBackend
    (Pair (Conn [Closes] false [] []) (Conn [] false [] []) Finished Running)
    = None /\
  Running <> Finished.
Proof. repeat split; discriminate. Qed.

End ConnectionsFacts.

(** ** The bytes a forwarder moves *)

Module StreamFacts.
Import Activate Vocabulary Observations ForwarderFacts.

(** X1.  What a forwarder writes is, byte for byte and in order, what its
    reads returned before the first read that reported an error, however
    the bytes were cut into reads. *)
Theorem forwarder_delivers_stream reads :
  written_bytes (snd (proxyNetworkConnections reads))
    = List.concat (List.map read_data (before_error reads)).
Proof.
  unfold proxyNetworkConnections. rewrite forward_trace. simpl.
  induction (before_error reads) as [|r rest IH]; simpl.
  - reflexivity.
  - rewrite IH. reflexivity.
Qed.

Lemma before_error_app good r rest :
  Forall (fun r => read_err r = false) good ->
  read_err r = true ->
  before_error (good ++ r :: rest) = good.
Proof.
  intros Hgood Hr. induction Hgood as [|g good Hg _ IH]; simpl.
  - rewrite Hr. reflexivity.
  - rewrite Hg, IH. reflexivity.
Qed.

Lemma before_error_clean good :
  Forall (fun r => read_err r = false) good -> before_error good = good.
Proof.
  induction 1 as [|g good Hg _ IH]; simpl.
  - reflexivity.
  - rewrite Hg, IH. reflexivity.
Qed.

(** X2.  Bytes that a read returns together with an error are dropped, and
    nothing is read after that read: the trace is the one of the reads
    before it. *)
Theorem forwarder_drops_bytes_read_with_error good data rest :
  Forall (fun r => read_err r = false) good ->
  snd (proxyNetworkConnections (good ++ Read data true :: rest))
    = snd (proxyNetworkConnections good) /\
  fst (proxyNetworkConnections (good ++ Read data true :: rest))
    = FwdReturned.
Proof.
  intros Hgood. unfold proxyNetworkConnections. rewrite !forward_trace. simpl.
  rewrite (before_error_app good (Read data true) rest Hgood eq_refl).
  rewrite (before_error_clean good Hgood).
  split.
  - reflexivity.
  - rewrite List.existsb_app. simpl. rewrite orb_true_r. reflexivity.
Qed.

Lemma forwarder_drops_bytes_read_with_error_witness :
  snd (proxyNetworkConnections
         ([Read [Byte.x68; Byte.x69] false]
            ++ Read [Byte.x21] true :: [Read [Byte.x3f] false]))
    = [FwdSignal; FwdWrite [Byte.x68; Byte.x69]] /\
  fst (proxyNetworkConnections
         ([Read [Byte.x68; Byte.x69] false]
            ++ Read [Byte.x21] true :: [Read [Byte.x3f] false]))
    = FwdReturned.
Proof.
  apply (forwarder_drops_bytes_read_with_error
           [Read [Byte.x68; Byte.x69] false] [Byte.x21]
           [Read [Byte.x3f] false]).
  apply List.Forall_cons; [reflexivity | apply List.Forall_nil].
Defined.

End StreamFacts.

(** ** The shape of the runs of the proxy loop *)

Module ShapeFacts.
Import Activate Vocabulary Observations TraceFacts.

Lemma chain_mid {E} (R : E -> E -> bool) pre x y post :
  chain R (pre ++ x :: y :: post) -> R x y = true.
Proof.
  induction pre as [|p pre IH]; simpl.
  - tauto.
  - intros [_ H]. exact (IH H).
Qed.

Lemma chain_join {E} (R : E -> E -> bool) l x y m :
  chain R (l ++ [x]) -> R x y = true -> chain R (y :: m) ->
  chain R (l ++ x :: y :: m).
Proof.
  intros Hl Hxy Hm. induction l as [|p l IH]; simpl in *.
  - auto.
  - destruct Hl as [Hp Hl]. split; [|exact (IH Hl)].
    destruct l; simpl in *; auto.
Qed.

Section Shape.

Variable bt : Z.

(** The trace of a dial loop: a chain that starts with a dial and ends
    with what the result says. *)
Lemma dial_shape had st tries : forall a now,
  chain may_follow (snd (dial_loop bt had st a now tries)) /\
  match fst (dial_loop bt had st a now tries) with
  | Connected _ =>
      exists l b, snd (dial_loop bt had st a now tries) = l ++ [EvDial b true]
  | ProcessExit c =>
      exists l, snd (dial_loop bt had st a now tries) = l ++ [EvExit c]
  | StillDialing _ _ =>
      snd (dial_loop bt had st a now tries) = [] \/
      exists l d, snd (dial_loop bt had st a now tries) = l ++ [EvSleep d]
  end.
Proof.
  induction tries as [|t rest IH]; intros a now; simpl.
  - auto.
  - destruct (dial_ok t); simpl.
    { split; [auto|]. exists [], now. reflexivity. }
    destruct had; simpl.
    { split; [auto|]. exists [EvDial now false]. reflexivity. }
    destruct (bt <? now + dial_took t - st); simpl.
    { split; [auto|]. exists [EvDial now false; EvSince (now + dial_took t)].
      reflexivity. }
    specialize (IH (bump_attempt a)
      (now + dial_took t + Z.max 0 (backoff_delay (bump_attempt a))
       + oversleep t)).
    pose proof (dial_loop_starts bt false st (bump_attempt a)
      (now + dial_took t + Z.max 0 (backoff_delay (bump_attempt a))
       + oversleep t) rest) as Hs.
    destruct (dial_loop _ _ _ _ _ rest) as [r tr]. simpl in *.
    destruct IH as [Hc Hl]. split.
    + split; [reflexivity|]. split; [reflexivity|]. split; [|exact Hc].
      destruct Hs as [[-> _] | (ok & l & ->)]; auto.
    + destruct r as [n | c | a' n].
      * destruct Hl as (l & b & ->).
        exists (EvDial now false :: EvSince (now + dial_took t)
                  :: EvSleep (backoff_delay (bump_attempt a)) :: l), b.
        reflexivity.
      * destruct Hl as (l & ->).
        exists (EvDial now false :: EvSince (now + dial_took t)
                  :: EvSleep (backoff_delay (bump_attempt a)) :: l).
        reflexivity.
      * right. destruct Hl as [-> | (l & d & ->)].
        -- exists [EvDial now false; EvSince (now + dial_took t)],
             (backoff_delay (bump_attempt a)). reflexivity.
        -- exists (EvDial now false :: EvSince (now + dial_took t)
                     :: EvSleep (backoff_delay (bump_attempt a)) :: l), d.
           reflexivity.
Qed.

(** The trace of the proxy loop: a chain that starts with a signal. *)
Lemma accept_shape script : forall had st now,
  chain may_follow (snd (accept_loop bt true had st now script)) /\
  exists l, snd (accept_loop bt true had st now script) = EvSignal :: l.
Proof.
  induction script as [|c rest IH]; intros had st now; simpl.
  - eauto.
  - destruct (accept_ok c); simpl; [|eauto 10].
    pose proof (dial_shape had st (dials c) 0 (now + accept_took c)) as Hd.
    pose proof (dial_loop_starts bt had st 0 (now + accept_took c) (dials c))
      as Hs.
    destruct (dial_loop bt had st 0 (now + accept_took c) (dials c))
      as [rd trd].
    simpl in Hd, Hs. destruct Hd as [Hc Hl].
    assert (Hhead : chain may_follow (EvAccept true :: trd)).
    { destruct Hs as [[-> _] | (ok & l & ->)]; simpl in *; auto. }
    destruct rd as [n | code | a' n].
    + specialize (IH true st n).
      destruct (accept_loop bt true true st n rest) as [r' tr'].
      simpl in *. destruct IH as [Hc' (l' & ->)].
      split; [|eauto]. split; [reflexivity|].
      destruct Hl as (l & b & ->).
      rewrite <- app_assoc. simpl.
      apply (chain_join may_follow (EvAccept true :: l)).
      * exact Hhead.
      * reflexivity.
      * simpl. auto.
    + simpl. split; [|eauto]. split; [reflexivity | exact Hhead].
    + simpl. split; [|eauto]. split; [reflexivity | exact Hhead].
Qed.

(** How a run ends tells how the loop was left. *)
Lemma accept_last script : forall had st now,
  match fst (accept_loop bt true had st now script) with
  | BlockedOnSend => False
  | Accepting _ _ =>
      last (snd (accept_loop bt true had st now script)) = Some EvSignal
  | Returned =>
      last (snd (accept_loop bt true had st now script)) = Some EvClose
  | Exited c =>
      last (snd (accept_loop bt true had st now script)) = Some (EvExit c)
  | Dialing _ _ =>
      last (snd (accept_loop bt true had st now script))
        = Some (EvAccept true) \/
      exists d,
        last (snd (accept_loop bt true had st now script)) = Some (EvSleep d)
  end.
Proof.
  induction script as [|c rest IH]; intros had st now; simpl.
  - reflexivity.
  - destruct (accept_ok c); simpl; [|reflexivity].
    pose proof (dial_shape had st (dials c) 0 (now + accept_took c)) as Hd.
    destruct (dial_loop bt had st 0 (now + accept_took c) (dials c))
      as [rd trd].
    simpl in Hd. destruct Hd as [_ Hl].
    destruct rd as [n | code | a' n].
    + specialize (IH true st n).
      pose proof (accept_shape rest true st n) as [_ (l' & Hl')].
      destruct (accept_loop bt true true st n rest) as [r' tr'].
      cbn [fst snd] in *. subst tr'.
      assert (E : last (EvSignal :: EvAccept true :: trd ++ EvSpawn
                          :: EvSignal :: l') = last (EvSignal :: l')).
      { replace (EvSignal :: EvAccept true :: trd ++ EvSpawn :: EvSignal :: l')
          with ((EvSignal :: EvAccept true :: trd ++ [EvSpawn])
                  ++ EvSignal :: l')
          by (simpl; rewrite <- app_assoc; reflexivity).
        rewrite last_app. destruct (last (EvSignal :: l')) eqn:E; auto.
        apply last_None in E. discriminate. }
      rewrite E. exact IH.
    + simpl. destruct Hl as (l & ->).
      rewrite !app_comm_cons. apply last_snoc.
    + simpl. destruct Hl as [-> | (l & d & ->)].
      * left. reflexivity.
      * right. exists d. rewrite !app_comm_cons. apply last_snoc.
Qed.

Lemma proxy_shape listener armed now script :
  chain may_follow (snd (startTCPProxy bt listener armed now script)).
Proof.
  unfold startTCPProxy. destruct listener; simpl; [|exact I].
  destruct armed.
  - apply accept_shape.
  - destruct script; exact I.
Qed.

End Shape.

End ShapeFacts.

(** ** Further properties of the proxy loop *)

Module ProxyFacts.
Import Activate Vocabulary Observations TraceFacts ShapeFacts.

Lemma proxy_runs bt listener armed now script :
  snd (startTCPProxy bt listener armed now script) <> [] ->
  startTCPProxy bt listener armed now script
    = accept_loop bt true false now now script.
Proof.
  unfold startTCPProxy. destruct listener; simpl; [|congruence].
  destruct armed; [reflexivity|].
  destruct script; simpl; congruence.
Qed.

Lemma app_cons_not_nil {A} (pre : list A) x post : pre ++ x :: post <> [].
Proof. destruct pre; discriminate. Qed.

(** X3.  The forwarders of a connection are started right after a dial
    that succeeded, and at no other point of a run. *)
Theorem forwarders_follow_success bt listener armed now script pre e post :
  snd (startTCPProxy bt listener armed now script) = pre ++ e :: post ->
  (forall b, e = EvDial b true -> exists post', post = EvSpawn :: post') /\
  (e = EvSpawn -> exists pre' b, pre = pre' ++ [EvDial b true]).
Proof.
  intros H.
  assert (Hne : snd (startTCPProxy bt listener armed now script) <> []).
  { rewrite H. apply app_cons_not_nil. }
  rewrite (proxy_runs _ _ _ _ _ Hne) in H. clear Hne.
  pose proof (accept_shape bt script false now now) as [Hc (l & Hl)].
  pose proof (accept_last bt script false now now) as Hlast.
  rewrite H in Hc, Hlast, Hl. split.
  - intros b ->. destruct post as [|y post'].
    + rewrite last_snoc in Hlast.
      destruct (fst (accept_loop bt true false now now script));
        try discriminate; try tauto.
      destruct Hlast as [? | [d ?]]; discriminate.
    + apply chain_mid in Hc. destruct y; try discriminate. eauto.
  - intros ->. destruct (decide (pre = [])) as [-> | Hpre].
    + discriminate.
    + destruct (exists_last Hpre) as (pre' & x & ->).
      rewrite <- app_assoc in Hc. simpl in Hc. apply chain_mid in Hc.
      destruct x as [| | [|] | b [|] | | | | |]; try discriminate. eauto.
Qed.

Lemma forwarders_follow_success_witness :
  exists post',
    [EvSpawn; EvSignal; EvAccept true; EvDial 13 false; EvExit 0]
      = EvSpawn :: post'.
Proof.
  apply (proj1 (forwarders_follow_success (30 * Second) true true 0
           [Incoming 5 true [DialTry 1 true 0];
            Incoming 7 true [DialTry 1 false 0]]
           [EvSignal; EvAccept true] (EvDial 5 true)
           [EvSpawn; EvSignal; EvAccept true; EvDial 13 false; EvExit 0]
           eq_refl) 5 eq_refl).
Defined.

(** X4.  The listener is closed exactly in the runs in which [Accept]
    failed and [startTCPProxy] returned, as the last thing done; a run
    that ends in [os.Exit] leaves it open. *)
Theorem listener_closed_on_return_only bt listener armed now script :
  (In EvClose (snd (startTCPProxy bt listener armed now script)) <->
   fst (startTCPProxy bt listener armed now script) = Returned) /\
  (forall pre post,
     snd (startTCPProxy bt listener armed now script)
       = pre ++ EvClose :: post ->
     post = [] /\ exists pre', pre = pre' ++ [EvSignal; EvAccept false]).
Proof.
  assert (Hpos : forall pre post,
            snd (startTCPProxy bt listener armed now script)
              = pre ++ EvClose :: post ->
            post = [] /\ exists pre', pre = pre' ++ [EvSignal; EvAccept false]).
  { intros pre post H.
    assert (Hne : snd (startTCPProxy bt listener armed now script) <> []).
    { rewrite H. apply app_cons_not_nil. }
    rewrite (proxy_runs _ _ _ _ _ Hne) in H. clear Hne.
    pose proof (accept_shape bt script false now now) as [Hc (l & Hl)].
    rewrite H in Hc, Hl. split.
    - destruct post as [|y post']; [reflexivity|].
      apply chain_mid in Hc. destruct y; discriminate.
    - destruct (decide (pre = [])) as [-> | Hpre]; [discriminate|].
      destruct (exists_last Hpre) as (pre1 & x & ->).
      pose proof Hc as Hc1.
      rewrite <- app_assoc in Hc1. simpl in Hc1. apply chain_mid in Hc1.
      destruct x as [| | [|] | b [|] | | | | |]; try discriminate.
      destruct (decide (pre1 = [])) as [-> | Hpre1]; [discriminate|].
      destruct (exists_last Hpre1) as (pre2 & x & ->).
      rewrite <- !app_assoc in Hc. simpl in Hc. apply chain_mid in Hc.
      destruct x as [| | [|] | b [|] | | | | |]; try discriminate.
      exists pre2. rewrite <- app_assoc. reflexivity. }
  split; [|exact Hpos]. split.
  - intros Hin. apply in_split in Hin. destruct Hin as (pre & post & H).
    destruct (Hpos pre post H) as [-> _].
    assert (Hne : snd (startTCPProxy bt listener armed now script) <> []).
    { rewrite H. apply app_cons_not_nil. }
    rewrite (proxy_runs _ _ _ _ _ Hne) in *. clear Hne.
    pose proof (accept_last bt script false now now) as Hlast.
    rewrite H, last_snoc in Hlast.
    destruct (fst (accept_loop bt true false now now script));
      try discriminate; try tauto.
    destruct Hlast as [? | [d ?]]; discriminate.
  - intros Hr.
    assert (Hne : snd (startTCPProxy bt listener armed now script) <> []).
    { unfold startTCPProxy in *. destruct listener; simpl in *;
        [|discriminate].
      destruct armed; [|destruct script; discriminate].
      destruct (accept_shape bt script false now now) as [_ (l & ->)].
      discriminate. }
    rewrite (proxy_runs _ _ _ _ _ Hne) in *. clear Hne.
    pose proof (accept_last bt script false now now) as Hlast.
    rewrite Hr in Hlast. apply last_Some in Hlast.
    destruct Hlast as (l' & ->). apply in_or_app. right. left. reflexivity.
Qed.

(** X5.  Every accept comes right after a send on the activity channel,
    and a run that is not blocked at its first send starts with one. *)
Theorem accept_follows_signal bt listener armed now script pre ok post :
  snd (startTCPProxy bt listener armed now script)
    = pre ++ EvAccept ok :: post ->
  exists pre', pre = pre' ++ [EvSignal].
Proof.
  intros H.
  assert (Hne : snd (startTCPProxy bt listener armed now script) <> []).
  { rewrite H. apply app_cons_not_nil. }
  rewrite (proxy_runs _ _ _ _ _ Hne) in H. clear Hne.
  pose proof (accept_shape bt script false now now) as [Hc (l & Hl)].
  rewrite H in Hc, Hl.
  destruct (decide (pre = [])) as [-> | Hpre]; [discriminate|].
  destruct (exists_last Hpre) as (pre' & x & ->).
  rewrite <- app_assoc in Hc. simpl in Hc. apply chain_mid in Hc.
  destruct x as [| | [|] | b [|] | | | | |]; try discriminate. eauto.
Qed.

Lemma accept_follows_signal_witness :
  exists pre', [EvSignal; EvAccept true; EvDial 5 true; EvSpawn; EvSignal]
               = pre' ++ [EvSignal].
Proof.
  apply (accept_follows_signal (30 * Second) true true 0
           [Incoming 5 true [DialTry 1 true 0];
            Incoming 7 true [DialTry 1 false 0]]
           [EvSignal; EvAccept true; EvDial 5 true; EvSpawn; EvSignal]
           true [EvDial 13 false; EvExit 0] eq_refl).
Defined.

(** What can stand between an accept and the start of the forwarders. *)
Lemma dialing_continues mid : forall x y post,
  match x with
  | EvAccept true | EvDial _ _ | EvSince _ | EvSleep _ => True
  | _ => False
  end ->
  chain may_follow (x :: mid ++ y :: post) ->
  ~ In EvSpawn mid ->
  match y with
  | EvDial _ _ | EvSince _ | EvSleep _ | EvExit _ | EvSpawn => True
  | _ => False
  end.
Proof.
  induction mid as [|m mid IH]; intros x y post Hx Hc Hno.
  - simpl in Hc. destruct Hc as [Hxy _].
    destruct x as [| | [|] | b [|] | | | | |], y; try discriminate;
      try tauto.
  - simpl in Hc. destruct Hc as [Hxm Hc].
    assert (Hno' : ~ In EvSpawn mid).
    { intros Hin. apply Hno. right. exact Hin. }
    assert (Hm : match m with
                 | EvDial _ _ | EvSince _ | EvSleep _ | EvExit _ | EvSpawn =>
                     True
                 | _ => False
                 end).
    { destruct x as [| | [|] | b [|] | | | | |], m; try discriminate;
        try tauto. }
    assert (Hgo : match m with
                  | EvDial _ _ | EvSince _ | EvSleep _ => True
                  | _ => False
                  end ->
                  match y with
                  | EvDial _ _ | EvSince _ | EvSleep _ | EvExit _
                  | EvSpawn => True
                  | _ => False
                  end).
    { intros Hmm. apply (IH m y post); [|exact Hc | exact Hno'].
      destruct m; tauto. }
    destruct m; try tauto; try (apply Hgo; exact I).
    + destruct Hno. left. reflexivity.
    + destruct Hc as [Hc _]. destruct mid; simpl in Hc; discriminate.
Qed.

(** X19.  Clients are served one at a time: between the accept of a
    connection and the next accept of the run, the forwarders of the
    first were started; while a connection is being dialed for, no other
    one is accepted. *)
Theorem one_client_at_a_time bt listener armed now script pre mid ok post :
  snd (startTCPProxy bt listener armed now script)
    = pre ++ EvAccept true :: mid ++ EvAccept ok :: post ->
  In EvSpawn mid.
Proof.
  intros H.
  pose proof (proxy_shape bt listener armed now script) as Hc.
  rewrite H in Hc.
  assert (Hc' : chain may_follow (EvAccept true :: mid ++ EvAccept ok :: post)).
  { clear H. induction pre as [|p pre IH]; simpl in *; [exact Hc|].
    apply IH. tauto. }
  destruct (List.in_dec
              (fun x y : event =>
                 ltac:(decide equality; try apply Z.eq_dec;
                       apply Bool.bool_dec))
              EvSpawn mid) as [Hin | Hno]; [exact Hin|].
  destruct (dialing_continues mid (EvAccept true) (EvAccept ok) post I
              Hc' Hno).
Qed.

Lemma one_client_at_a_time_witness :
  In EvSpawn [EvDial 5 true; EvSpawn; EvSignal].
Proof.
  apply (one_client_at_a_time (30 * Second) true true 0
           [Incoming 5 true [DialTry 1 true 0];
            Incoming 7 true [DialTry 1 false 0]]
           [EvSignal] [EvDial 5 true; EvSpawn; EvSignal] true
           [EvDial 13 false; EvExit 0]).
  reflexivity.
Defined.

End ProxyFacts.

(** ** Further properties of the back-off *)

Module RetryFacts.
Import Activate Vocabulary Observations TraceFacts BackoffFacts ShapeFacts.

Lemma sleeps_app tr1 tr2 : sleeps (tr1 ++ tr2) = sleeps tr1 ++ sleeps tr2.
Proof.
  induction tr1 as [|e tr1 IH]; simpl; [reflexivity|].
  destruct e; simpl; rewrite ?IH; reflexivity.
Qed.

Section Retry.

Variable bt : Z.

Lemma capped_delay_step k : 1 <= k -> backoff_step (capped_delay k).
Proof.
  intros Hk. exists (Z.min k 9). split; [lia | reflexivity].
Qed.

Lemma backoff_step_bounds d :
  backoff_step d -> Second <= d <= 256 * Second.
Proof.
  intros (j & Hj & ->).
  assert (Hp : 2 ^ 1 <= 2 ^ j <= 2 ^ 9).
  { split; apply Z.pow_le_mono_r; lia. }
  change (2 ^ 1) with 2 in Hp. change (2 ^ 9) with 512 in Hp.
  unfold Second, Millisecond, Nanosecond. lia.
Qed.

Lemma dial_sleeps_steps had st tries a now :
  0 <= a <= 9 ->
  Forall backoff_step (sleeps (snd (dial_loop bt had st a now tries))).
Proof.
  intros Ha. rewrite (dial_sleeps_schedule bt had st tries a now Ha).
  apply List.Forall_forall. intros d Hd.
  apply List.in_map_iff in Hd. destruct Hd as (k & <- & Hk).
  apply List.in_seq in Hk. apply capped_delay_step. lia.
Qed.

Lemma accept_sleeps_steps armed script : forall had st now,
  Forall backoff_step (sleeps (snd (accept_loop bt armed had st now script))).
Proof.
  induction script as [|c rest IH]; intros had st now;
    destruct armed; simpl; try apply List.Forall_nil.
  destruct (accept_ok c); simpl; [|apply List.Forall_nil].
  pose proof (dial_sleeps_steps had st (dials c) 0 (now + accept_took c)
                ltac:(lia)) as Hd.
  destruct (dial_loop bt had st 0 (now + accept_took c) (dials c))
    as [rd trd].
  simpl in Hd. destruct rd as [n | code | a' n]; simpl; auto.
  specialize (IH true st n).
  destruct (accept_loop bt true true st n rest) as [r' tr']. simpl in *.
  rewrite sleeps_app. simpl. apply List.Forall_app. auto.
Qed.

(** Once the flag is set nothing is slept and no clock is read. *)
Lemma accept_had_no_retry script : forall st now e,
  In e (snd (accept_loop bt true true st now script)) ->
  match e with EvSleep _ | EvSince _ => False | _ => True end.
Proof.
  induction script as [|c rest IH]; intros st now e; simpl.
  - intros [<- | []]. exact I.
  - destruct (accept_ok c); simpl.
    2:{ intros [<- | [<- | [<- | []]]]; exact I. }
    destruct (dials c) as [|t ts]; simpl.
    { intros [<- | [<- | []]]; exact I. }
    destruct (dial_ok t); simpl.
    + specialize (IH st (now + accept_took c + dial_took t) e).
      destruct (accept_loop bt true true st _ rest) as [r tr]. simpl in *.
      intros [<- | [<- | [<- | [<- | H]]]]; try exact I. exact (IH H).
    + intros [<- | [<- | [<- | [<- | []]]]]; exact I.
Qed.

Lemma dial_no_spawn had st tries : forall a now,
  ~ In EvSpawn (snd (dial_loop bt had st a now tries)).
Proof.
  induction tries as [|t rest IH]; intros a now; simpl; [tauto|].
  destruct (dial_ok t); [simpl; intros [H | []]; discriminate|].
  destruct had; [simpl; intros [H | [H | []]]; discriminate|].
  destruct (bt <? now + dial_took t - st);
    [simpl; intros [H | [H | [H | []]]]; discriminate|].
  specialize (IH (bump_attempt a)
    (now + dial_took t + Z.max 0 (backoff_delay (bump_attempt a))
     + oversleep t)).
  destruct (dial_loop _ _ _ _ _ rest) as [r tr]. simpl in *.
  intros [H | [H | [H | H]]]; try discriminate. exact (IH H).
Qed.

Lemma accept_retry_before_spawn script : forall had st now pre post e,
  snd (accept_loop bt true had st now script) = pre ++ EvSpawn :: post ->
  In e post ->
  match e with EvSleep _ | EvSince _ => False | _ => True end.
Proof.
  destruct script as [|c rest]; intros had st now pre post e H Hin;
    simpl in H.
  - symmetry in H. head H. destruct (app_cons_nil _ _ _ H).
  - destruct (accept_ok c); simpl in H.
    2:{ symmetry in H. head H. head H. head H.
        destruct (app_cons_nil _ _ _ H). }
    pose proof (dial_no_spawn had st (dials c) 0 (now + accept_took c))
      as Hno.
    destruct (dial_loop bt had st 0 (now + accept_took c) (dials c))
      as [rd trd].
    simpl in Hno.
    assert (Hin' : forall l1 l2, trd = l1 ++ EvSpawn :: l2 -> False).
    { intros l1 l2 ->. apply Hno. apply in_or_app. right. left. reflexivity. }
    destruct rd as [n | code | a' n].
    + pose proof (accept_had_no_retry rest st n e) as Hrest.
      destruct (accept_loop bt true true st n rest) as [r' tr'].
      simpl in *. symmetry in H. head H. head H.
      apply locate in H. destruct H as [(l & -> & _) | (l & -> & Hl)].
      * destruct (Hin' _ _ eq_refl).
      * apply Hrest. symmetry in Hl. head Hl.
        -- subst. exact Hin.
        -- subst. apply in_or_app. right. right. exact Hin.
    + simpl in *. symmetry in H. head H. head H.
      destruct (Hin' _ _ (eq_sym H)).
    + simpl in *. symmetry in H. head H. head H.
      destruct (Hin' _ _ (eq_sym H)).
Qed.

End Retry.

(** X6.  Whatever the dials return and however long they take, the delays
    of one connection are a beginning of 1s, 2s, 4s, ..., 256s, 256s, ...:
    the delay at position k, counted from 0, is 500ms * 2^min(k+1, 9). *)
Theorem delays_follow_schedule bt had st now tries (k : nat) d :
  sleeps (snd (dial_loop bt had st 0 now tries)) !! k = Some d ->
  d = 500 * 2 ^ Z.min (Z.of_nat k + 1) 9 * Millisecond.
Proof.
  rewrite (dial_sleeps_schedule bt had st tries 0 now ltac:(lia)).
  change (List.map ?f ?l) with (f <$> l).
  rewrite list_lookup_fmap. intros H.
  destruct (List.seq 1 _ !! k) as [j|] eqn:E; [|discriminate].
  apply lookup_seq in E. destruct E as [-> _].
  cbv [fmap option_fmap option_map] in H. injection H as <-.
  unfold capped_delay.
  match goal with
  | |- context [Z.min ?x 9] => replace x with (Z.of_nat k + 1) by lia
  end.
  reflexivity.
Qed.

Lemma delays_follow_schedule_witness :
  4 * Second = 500 * 2 ^ Z.min (Z.of_nat 2 + 1) 9 * Millisecond.
Proof.
  apply (delays_follow_schedule (5 * Second) false 0 0
           (List.repeat (DialTry Millisecond false 0) 12) 2 (4 * Second)).
  reflexivity.
Defined.

(** X7.  In every run of the proxy loop every delay slept is 500ms * 2^j
    for some j from 1 to 9, so at least one second and at most 256: the
    arithmetic of line 136 never overflows or yields a zero or negative
    delay. *)
Theorem delays_are_bounded bt listener armed now script :
  Forall (fun d => backoff_step d /\ Second <= d <= 256 * Second)
         (sleeps (snd (startTCPProxy bt listener armed now script))).
Proof.
  assert (H : Forall backoff_step
                (sleeps (snd (startTCPProxy bt listener armed now script)))).
  { unfold startTCPProxy. destruct listener; simpl.
    - apply accept_sleeps_steps.
    - apply List.Forall_nil. }
  apply List.Forall_forall. intros d Hd.
  pose proof (proj1 (List.Forall_forall _ _) H d Hd) as Hs.
  split; [exact Hs | exact (backoff_step_bounds d Hs)].
Qed.

(** X8.  Only the first client is ever dialed for more than once: after
    the first pair of forwarders was started, no run sleeps or reads the
    clock again, so the back-off and the back-end timeout, and the reset
    of the attempt counter at line 109, concern the first connection
    only. *)
Theorem retries_before_first_success_only bt listener armed now script
    pre post e :
  snd (startTCPProxy bt listener armed now script) = pre ++ EvSpawn :: post ->
  In e post ->
  (forall d, e <> EvSleep d) /\ (forall c, e <> EvSince c).
Proof.
  intros H Hin.
  assert (He : match e with EvSleep _ | EvSince _ => False | _ => True end).
  { unfold startTCPProxy in H. destruct listener; simpl in H.
    - destruct armed.
      + exact (accept_retry_before_spawn bt script _ _ _ _ _ _ H Hin).
      + destruct script; simpl in H; symmetry in H;
          destruct (app_cons_nil _ _ _ H).
    - symmetry in H. destruct (app_cons_nil _ _ _ H). }
  split; intros x ->; exact He.
Qed.

Lemma retries_before_first_success_only_witness :
  (forall d, EvDial 3000000015 false <> EvSleep d) /\
  (forall c, EvDial 3000000015 false <> EvSince c).
Proof.
  apply (retries_before_first_success_only (30 * Second) true true 0
           [Incoming 5 true
              [DialTry 1 false 0; DialTry 1 false 0; DialTry 1 true 0];
            Incoming 7 true [DialTry 1 false 0; DialTry 1 true 0]]
           [EvSignal; EvAccept true; EvDial 5 false; EvSince 6;
            EvSleep 1000000000; EvDial 1000000006 false; EvSince 1000000007;
            EvSleep 2000000000; EvDial 3000000007 true]
           [EvSignal; EvAccept true; EvDial 3000000015 false; EvExit 0]).
  - reflexivity.
  - simpl. auto.
Defined.

End RetryFacts.

(** ** Giving up, and the flag *)

Module DeadlineFacts.
Import Activate Vocabulary Observations TraceFacts BackoffFacts.

Lemma slept_capped n : forall a a', 9 <= a -> 9 <= a' -> slept a n = slept a' n.
Proof.
  induction n as [|n IH]; intros a a' Ha Ha'; simpl; [reflexivity|].
  rewrite (IH (a + 1) (a' + 1)) by lia. unfold capped_delay.
  rewrite !Z.min_r by lia. reflexivity.
Qed.

Lemma slept_bumped a n : 0 <= a <= 9 -> slept (Z.min (a + 1) 9) n = slept (a + 1) n.
Proof.
  intros Ha. destruct (Z.eq_dec a 9) as [-> | Hne].
  - apply slept_capped; lia.
  - rewrite Z.min_l by lia. reflexivity.
Qed.

Section Deadline.

Variable bt : Z.

Lemma dial_gives_up st tries : forall a now,
  0 <= a <= 9 ->
  Forall fails tries ->
  tries <> [] ->
  bt < now - st + slept a (List.length tries - 1) ->
  fst (dial_loop bt false st a now tries) = ProcessExit 0.
Proof.
  induction tries as [|t rest IH]; intros a now Ha Hall Hne Hbt;
    [congruence|].
  inversion Hall as [|t' rest' [Hok [Ht Ho]] Hrest]; subst.
  simpl. rewrite Hok.
  destruct (bt <? now + dial_took t - st) eqn:Hlate; [reflexivity|].
  apply Z.ltb_ge in Hlate.
  specialize (IH (bump_attempt a)
    (now + dial_took t + Z.max 0 (backoff_delay (bump_attempt a))
     + oversleep t)).
  rewrite (bump_attempt_min a Ha) in *.
  rewrite backoff_delay_pow in * by lia.
  destruct rest as [|t2 rest].
  - simpl in Hbt. lia.
  - assert (E : fst (dial_loop bt false st (Z.min (a + 1) 9)
                       (now + dial_took t
                        + Z.max 0 (500 * 2 ^ Z.min (a + 1) 9 * Millisecond)
                        + oversleep t) (t2 :: rest)) = ProcessExit 0).
    { apply IH; [lia | assumption | discriminate |].
      rewrite slept_bumped by assumption.
      replace (List.length (t :: t2 :: rest) - 1)%nat
        with (S (List.length rest)) in Hbt by (simpl; lia).
      replace (List.length (t2 :: rest) - 1)%nat
        with (List.length rest) by (simpl; lia).
      simpl slept in Hbt. unfold capped_delay in Hbt. lia. }
    destruct (dial_loop bt false st _ _ (t2 :: rest)) as [r tr].
    simpl in *. exact E.
Qed.

(** The flag is what is in the trace: set at the start, or a dial that
    succeeded. *)
Lemma accept_flag script : forall had st now h n,
  fst (accept_loop bt true had st now script) = Accepting h n ->
  (h = true <->
   had = true \/
   exists b, In (EvDial b true) (snd (accept_loop bt true had st now script))).
Proof.
  induction script as [|c rest IH]; intros had st now h n; simpl.
  - intros [= <- _]. split; [auto|].
    intros [H | (b & [H | []])]; [exact H | discriminate].
  - destruct (accept_ok c); simpl; [|discriminate].
    pose proof (dial_connected_event bt had st (dials c) 0
                  (now + accept_took c)) as Hc.
    destruct (dial_loop bt had st 0 (now + accept_took c) (dials c))
      as [rd trd].
    simpl in Hc. destruct rd as [n' | code | a' n']; try discriminate.
    specialize (IH true st n' h n).
    destruct (accept_loop bt true true st n' rest) as [r' tr']. simpl in *.
    intros Hr. destruct (IH Hr) as [_ Hh]. split.
    + intros _. right. destruct (Hc n' eq_refl) as [b Hb]. exists b.
      right. right. apply in_or_app. auto.
    + intros _. apply Hh. auto.
Qed.

End Deadline.

(** X9.  A back end that stays down ends the process after a bounded
    number of dials: with the flag not set, the n-th failed dial of a
    connection exits with status 0 at the latest when the delays slept
    before it, 1s + 2s + 4s + ..., exceed what was left of the back-end
    timeout. *)
Theorem dialing_gives_up bt st now tries :
  Forall fails tries ->
  tries <> [] ->
  bt < now - st + slept 0 (List.length tries - 1) ->
  fst (dial_loop bt false st 0 now tries) = ProcessExit 0.
Proof.
  intros Hall Hne Hbt. apply dial_gives_up; auto. lia.
Qed.

(** The default of thirty seconds: six instant failures are enough, the
    five delays before the sixth add up to thirty-one seconds. *)
Lemma dialing_gives_up_witness :
  fst (dial_loop (30 * Second) false 0 0 0
         (List.repeat (DialTry 0 false 0) 6)) = ProcessExit 0.
Proof.
  apply (dialing_gives_up (30 * Second) 0 0
           (List.repeat (DialTry 0 false 0) 6)).
  - simpl. repeat (apply List.Forall_cons; [unfold fails; simpl; lia|]).
    apply List.Forall_nil.
  - discriminate.
  - vm_compute. reflexivity.
Defined.

(** X10.  When the proxy loop waits in [Accept], [hadSuccessfulConnection]
    is set exactly if some dial of the run succeeded. *)
Theorem flag_records_success bt listener armed now script h n :
  fst (startTCPProxy bt listener armed now script) = Accepting h n ->
  (h = true <->
   exists b,
     In (EvDial b true) (snd (startTCPProxy bt listener armed now script))).
Proof.
  unfold startTCPProxy. destruct listener; simpl; [|discriminate].
  destruct armed; [|destruct script; discriminate].
  intros H. rewrite (accept_flag bt script false now now h n H).
  split; [intros [Hf | Hex]; [discriminate | exact Hex] | auto].
Qed.

Lemma flag_records_success_witness :
  true = true <->
  exists b,
    In (EvDial b true)
       (snd (startTCPProxy (30 * Second) true true 0
               [Incoming 5 true [DialTry 1 true 0]])).
Proof.
  apply (flag_records_success (30 * Second) true true 0
           [Incoming 5 true [DialTry 1 true 0]] true 6).
  reflexivity.
Defined.

End DeadlineFacts.

(** ** The supervisor and the startup, in general *)

Module StartupFacts.
Import Activate Vocabulary Observations ExitFacts.

(** X11.  Whatever arrives and whenever: the supervisor calls [stop] at
    most once; while it stays in its loop it has not called it; and it
    ends the process only right after its one call of [stop], having
    taken every earlier signal. *)
Theorem supervisor_any_run timeout stop_ok waits :
  (stops (snd (terminateWithoutActivity timeout stop_ok waits)) <= 1)%nat /\
  (fst (terminateWithoutActivity timeout stop_ok waits) = Armed ->
   snd (terminateWithoutActivity timeout stop_ok waits)
     = List.repeat SupActivity (List.length waits)) /\
  (forall code,
     fst (terminateWithoutActivity timeout stop_ok waits) = SupExited code ->
     exists n, (n < List.length waits)%nat /\
       snd (terminateWithoutActivity timeout stop_ok waits)
         = List.repeat SupActivity n
             ++ SupStop :: (if stop_ok then [SupExit 0] else [])).
Proof.
  induction waits as [|w rest (IH1 & IH2 & IH3)]; simpl.
  - split; [unfold stops; simpl; lia|]. split; [reflexivity | discriminate].
  - destruct (select_wait timeout w).
    + destruct (terminateWithoutActivity timeout stop_ok rest) as [r tr].
      simpl in *. split; [exact IH1|]. split.
      * intros Hr. rewrite (IH2 Hr). reflexivity.
      * intros code Hr. destruct (IH3 code Hr) as (n & Hn & ->).
        exists (S n). split; [lia | reflexivity].
    + destruct stop_ok; simpl.
      * split; [unfold stops; simpl; lia|]. split; [discriminate|].
        intros code _. exists 0%nat. split; [lia | reflexivity].
      * split; [unfold stops; simpl; lia|]. split; [discriminate|].
        intros code _. exists 0%nat. split; [lia | reflexivity].
Qed.

(** X12.  [main] ends with status 1 exactly when something fails at
    startup: the activation check, the bus connection, the call of
    [start], or the listener; and the unit has been asked to start
    exactly when the first two succeeded, also when the listener then
    fails. *)
Theorem startup_failures timeout bt w :
  (fst (main timeout bt w) = Exited 1 <->
   activated w = false \/ bus_ok w = false \/ start_ok w = false \/
   listener_ok w = false) /\
  (In EvStart (snd (main timeout bt w)) <->
   activated w = true /\ bus_ok w = true).
Proof.
  unfold main, startTCPProxy, startSystemdUnit.
  destruct (activated w), (bus_ok w), (start_ok w), (listener_ok w); simpl;
    try (split; split; intros; intuition (auto; discriminate)).
  pose proof (accept_loop_exit_code bt (negb (timeout =? 0)) (conns w)
                false (clock0 w) (clock0 w) 1) as Hc.
  destruct (accept_loop bt (negb (timeout =? 0)) false (clock0 w) (clock0 w)
              (conns w)) as [r tr].
  simpl in *. split; split.
  - intros H. specialize (Hc H). discriminate.
  - intros [H | [H | [H | H]]]; discriminate.
  - auto.
  - auto.
Qed.

End StartupFacts.

(** ** Activation *)

Module ActivationFacts.
Import Activate Vocabulary Observations.

Lemma Itoa_parse n : NilZero.int_of_string (Itoa n) = Some (Z.to_int n).
Proof.
  unfold Itoa. apply NilZero.isi; destruct n; simpl; try discriminate;
    intros [= H]; exact (DecimalPos.Unsigned.to_uint_nonnil _ H).
Qed.

Lemma Itoa_inj p q : Itoa p = Itoa q -> p = q.
Proof.
  intros H. pose proof (Itoa_parse p) as Hp. rewrite H, Itoa_parse in Hp.
  injection Hp as Hp.
  rewrite <- (DecimalZ.of_to p), <- (DecimalZ.of_to q), Hp. reflexivity.
Qed.

(** X13.  The activation check passes for one process id only: when it
    passes, LISTEN_PID reads as the decimal numeral of the pid, and the
    same environment in a process with another pid fails the check. *)
Theorem activation_names_one_pid w :
  activated w = true ->
  option_map Z.of_int (NilZero.int_of_string (LISTEN_PID w)) = Some (pid w) /\
  forall q, activated (with_pid w q) = true -> q = pid w.
Proof.
  unfold activated. intros H. apply String.eqb_eq in H. split.
  - rewrite H, Itoa_parse. simpl. rewrite DecimalZ.of_to. reflexivity.
  - intros q Hq. simpl in Hq. apply String.eqb_eq in Hq.
    apply Itoa_inj. congruence.
Qed.

Lemma activation_names_one_pid_witness :
  option_map Z.of_int (NilZero.int_of_string "4242") = Some 4242 /\
  forall q,
    activated (with_pid (World "4242" 4242 true true true 0 []) q) = true ->
    q = 4242.
Proof.
  apply (activation_names_one_pid (World "4242" 4242 true true true 0 [])).
  reflexivity.
Defined.

End ActivationFacts.

(** ** The goroutines together, further *)

Module GoroutineFacts.
Import Interleaving Vocabulary Observations.

Lemma ready_init cfg : Ready cfg init.
Proof.
  split; simpl; auto; try discriminate; try congruence.
  - intros [H | H]; discriminate.
  - exists 0%nat. reflexivity.
  - split; [congruence | discriminate].
Qed.

Lemma insert_nil_iff {A} (l : list A) i x : <[i := x]> l = [] <-> l = [].
Proof.
  split.
  - intros E. apply (f_equal List.length) in E. rewrite length_insert in E.
    destruct l; [reflexivity | discriminate].
  - intros ->. reflexivity.
Qed.

Lemma ready_step cfg l s s' :
  Ready cfg s -> step cfg l s = Some s' -> Ready cfg s'.
Proof.
  intros [R1 R2 R5 R6 [k R3] R4] H.
  destruct s as [p pc rc sg h fs lg]. unfold step in H. simpl in *.
  destruct p; [|discriminate].
  destruct l as [ok late | from | | stop_ok | i ok]; simpl in H.
  - unfold step_main in H; simpl in H.
    destruct pc; repeat case_match; simplify_eq; simpl in *.
    all: split; simpl; eauto; try discriminate.
    all: try (intros [?|?]; discriminate).
    all: try (destruct (R2 eq_refl) as [-> ->]; auto; fail).
    all: try (intros; apply R5; auto; fail).
    all: try (intros; destruct (R2 eq_refl) as [_ ->]; congruence).
    + exists (S k). rewrite List.length_app, R3. simpl. lia.
    + split; [reflexivity|]. intros _. destruct fs; discriminate.
  - unfold step_handoff in H; simpl in H.
    destruct rc, sg; simpl in H; try discriminate.
    destruct from; repeat case_match; simplify_eq; simpl in *.
    all: split; simpl; eauto; try discriminate.
    all: rewrite ?insert_nil_iff; auto.
    all: try (intros Hc; apply R2 in Hc; destruct Hc; discriminate).
    exists k. rewrite length_insert. exact R3.
  - unfold step_timer in H; simpl in H.
    destruct rc, sg; simpl in H; try discriminate.
    simplify_eq; simpl in *; split; simpl; eauto.
  - unfold step_stopped in H; simpl in H.
    destruct sg; simpl in H; [|discriminate].
    repeat case_match; simplify_eq; simpl in *; split; simpl; eauto.
  - unfold step_read in H; simpl in H.
    repeat case_match; simplify_eq; simpl in *.
    all: split; simpl; eauto; rewrite ?insert_nil_iff; auto.
    all: try (intros Hc; destruct (R2 Hc) as [_ ->]; discriminate).
    all: exists k; rewrite length_insert; exact R3.
Qed.

Lemma ready_exec cfg ls : forall s s',
  Ready cfg s -> exec cfg ls s = Some s' -> Ready cfg s'.
Proof.
  induction ls as [|l ls IH]; intros s s' Hs H; simpl in H.
  - congruence.
  - destruct (step cfg l s) as [s1|] eqn:E; [|discriminate].
    exact (IH _ _ (ready_step _ _ _ _ Hs E) H).
Qed.

(** X14.  With a non-zero idle timeout a sender at the activity channel
    is stuck only while the supervisor is inside its call of [stop].  In
    every state the program reaches while it runs: as long as the
    supervisor has not taken the timer case of its select, the main
    goroutine at line 101 and every forwarder at line 85 can hand its
    value over; once it has (lines 70 to 72), nothing receives, no value
    is handed over any more, and the return of the [stop] call ends the
    process. *)
Theorem armed_senders_progress cfg ls s :
  timeout cfg <> 0 ->
  exec cfg ls init = Some s ->
  proc s = Alive ->
  (stopping s = false ->
   (at_main s = AtSend -> is_Some (step cfg (Handoff Main) s)) /\
   (forall i, forwarders s !! i = Some FwSend ->
              is_Some (step cfg (Handoff (Forwarder i)) s))) /\
  (stopping s = true ->
   (forall from, step cfg (Handoff from) s = None) /\
   (forall stop_ok, exists s',
      step cfg (StopReturns stop_ok) s = Some s' /\ proc s' <> Alive)).
Proof.
  intros Ht H Halive.
  destruct (ready_exec cfg ls init s (ready_init cfg) H) as [R1 R2 _ _ _ _].
  apply Z.eqb_neq in Ht.
  destruct s as [p pc rc sg h fs lg]. simpl in *. subst p.
  unfold step, step_handoff, step_stopped. simpl. split.
  - intros ->. split.
    + intros ->. rewrite (R1 eq_refl), Ht. simpl. eauto.
    + intros i Hi. rewrite Hi.
      destruct (channel_made pc) eqn:Epc.
      * rewrite (R1 eq_refl), Ht. simpl. eauto.
      * destruct (R2 eq_refl) as [_ ->]. discriminate.
  - intros ->. split.
    + intros from. rewrite orb_true_r. reflexivity.
    + intros stop_ok. simpl.
      destruct (Activate.stopSystemdUnit stop_ok);
        eexists; (split; [reflexivity | discriminate]).
Qed.

(** A forwarder that has read a chunk hands its value over; after the
    timer case was taken it no longer can. *)
Lemma armed_senders_progress_witness :
  exists s,
    exec (Config (2 * Second)
                 (Activate.World "4242" 4242 true true true 0 []))
         [StepMain true false; StepMain true false; StepMain true false;
          StepMain true false; StepMain true false; Handoff Main;
          StepMain true false; StepMain true false; StepRead 0 true]
         init = Some s /\
    is_Some (step (Config (2 * Second)
                     (Activate.World "4242" 4242 true true true 0 []))
                  (Handoff (Forwarder 0)) s).
Proof.
  eexists. split; [reflexivity|].
  refine (proj2 (proj1 (armed_senders_progress
            (Config (2 * Second)
                    (Activate.World "4242" 4242 true true true 0 []))
            [StepMain true false; StepMain true false; StepMain true false;
             StepMain true false; StepMain true false; Handoff Main;
             StepMain true false; StepMain true false; StepRead 0 true]
            _ _ eq_refl eq_refl) eq_refl) 0%nat eq_refl).
  vm_compute. discriminate.
Defined.



End GoroutineFacts.

(** ** The bytes of a pair *)

Module DeliveryFacts.
Import Connections Vocabulary Observations.

Lemma step_pair_conserves d e p p' :
  open_pair p ->
  room (sink d p) = [] ->
  step_pair e p = Some p' ->
  (open_pair p' /\ room (sink d p') = []) /\
  written (sink d p') ++ pending (inbox (source d p'))
    = written (sink d p) ++ pending (inbox (source d p)).
Proof.
  intros [Ho Hb] Hr H. unfold open_pair.
  destruct p as [[oi oc ow orm] [bi bc bw brm] tc tb]. simpl in *. subst oc bc.
  destruct e; simpl in H.
  - destruct tc; [|discriminate]. unfold conn_read in H. simpl in H.
    destruct oi as [|[data|] oi]; simplify_eq; simpl.
    + destruct d; simpl in *; subst; unfold conn_write; simpl;
        rewrite <- ?app_assoc; auto.
      destruct brm; auto.
    + destruct d; simpl; auto.
  - destruct tb; [|discriminate]. unfold conn_read in H. simpl in H.
    destruct bi as [|[data|] bi]; simplify_eq; simpl.
    + destruct d; simpl in *; subst; unfold conn_write; simpl;
        rewrite <- ?app_assoc; auto.
      destruct orm; auto.
    + destruct d; simpl; auto.
Qed.

Lemma run_pair_conserves d sched : forall p,
  open_pair p ->
  room (sink d p) = [] ->
  open_pair (run_pair sched p) /\
  written (sink d (run_pair sched p))
      ++ pending (inbox (source d (run_pair sched p)))
    = written (sink d p) ++ pending (inbox (source d p)).
Proof.
  induction sched as [|e sched IH]; intros p Hp Hr; simpl; [auto|].
  destruct (step_pair e p) as [p'|] eqn:E; [|auto].
  destruct (step_pair_conserves d e p p' Hp Hr E) as [[Hp' Hr'] Heq].
  destruct (IH p' Hp' Hr') as [Ho Hc]. split; [exact Ho|]. congruence.
Qed.

Lemma chunks_ahead_pending inbox :
  chunks_ahead inbox = 0%nat -> pending inbox = [].
Proof. destruct inbox as [|[data|] rest]; simpl; auto. discriminate. Qed.

(** Enough turns leave nothing pending. *)
Lemma run_pair_drains d sched : forall p,
  open_pair p ->
  task_of d p = Running \/ chunks_ahead (inbox (source d p)) = 0%nat ->
  (chunks_ahead (inbox (source d p)) <= turns d sched)%nat ->
  chunks_ahead (inbox (source d (run_pair sched p))) = 0%nat.
Proof.
  induction sched as [|e sched IH]; intros p Hp Ht Hn; simpl in *.
  - lia.
  - destruct p as [[oi oc ow orm] [bi bc bw brm] tc tb].
    destruct Hp as [Ho Hb]. simpl in Ho, Hb. subst oc bc.
    destruct e, d; simpl in *; unfold conn_read, conn_write; simpl.
    + destruct brm; (destruct tc; [destruct oi as [|[data|] oi]|]);
        simpl in *; apply IH; simpl; auto;
        try (split; reflexivity); try lia.
      all: destruct Ht as [Ht | Ht]; [discriminate | lia].
    + destruct brm; (destruct tc; [destruct oi as [|[data|] oi]|]);
        simpl in *; apply IH; simpl; auto;
        try (split; reflexivity); try lia.
    + destruct orm; (destruct tb; [destruct bi as [|[data|] bi]|]);
        simpl in *; apply IH; simpl; auto;
        try (split; reflexivity); try lia.
    + destruct orm; (destruct tb; [destruct bi as [|[data|] bi]|]);
        simpl in *; apply IH; simpl; auto;
        try (split; reflexivity); try lia.
      all: destruct Ht as [Ht | Ht]; [discriminate | lia].
Qed.

Lemma chunks_ahead_le inbox : (chunks_ahead inbox <= List.length inbox)%nat.
Proof.
  induction inbox as [|[data|] rest IH]; simpl; lia.
Qed.

(** X16.  In a pair the proxy never closed, and as long as every [Write]
    to a forwarder's destination delivers all of its bytes, no byte of
    that direction is lost, doubled or moved, whatever the order in which
    the two forwarders take their turns and whatever happens to the
    writes of the other direction: what the forwarder has written to its
    destination, followed by what its source has sent and is still to be
    read, stays the same. *)
Theorem bytes_are_conserved d sched p :
  open_pair p ->
  room (sink d p) = [] ->
  written (sink d (run_pair sched p))
      ++ pending (inbox (source d (run_pair sched p)))
    = written (sink d p) ++ pending (inbox (source d p)).
Proof.
  intros Hp Hr. exact (proj2 (run_pair_conserves d sched p Hp Hr)).
Qed.

(** The writes to the client fall short, those to the backend do not. *)
Lemma bytes_are_conserved_witness :
  written (sink FromClient
     (run_pair [FromBackend; FromClient; FromBackend]
        (Pair (Conn [Sends [Byte.x68]; Sends [Byte.x69]; Closes] false []
                    [0%nat])
              (Conn [Sends [Byte.x6f]] false [] []) Running Running)))
    ++ pending (inbox (source FromClient
         (run_pair [FromBackend; FromClient; FromBackend]
            (Pair (Conn [Sends [Byte.x68]; Sends [Byte.x69]; Closes] false []
                        [0%nat])
                  (Conn [Sends [Byte.x6f]] false [] []) Running Running))))
    = [Byte.x68; Byte.x69].
Proof.
  apply (bytes_are_conserved FromClient
           [FromBackend; FromClient; FromBackend]
           (Pair (Conn [Sends [Byte.x68]; Sends [Byte.x69]; Closes] false []
                       [0%nat])
                 (Conn [Sends [Byte.x6f]] false [] []) Running Running)).
  - split; reflexivity.
  - reflexivity.
Defined.

(** One [Write] that fails after its first byte: line 86 discards the
    error, the forwarder reads on, and the second byte of the chunk is
    neither written nor pending. *)
Lemma short_write_loses_bytes :
  run_pair [FromClient; FromClient]
    (Pair (Conn [Sends [Byte.x68; Byte.x69]; Sends [Byte.x21]] false [] [])
          (Conn [] false [] [1%nat]) Running Running)
    = Pair (Conn [] false [] [])
           (Conn [] false [Byte.x68; Byte.x21] []) Running Running.
Proof. reflexivity. Qed.

(** X17.  In a pair the proxy never closed, a forwarder that runs and
    gets as many turns as its peer has sent chunks has written all of
    them to its destination, in order and unchanged, whatever the other
    forwarder did in between, provided every [Write] to that destination
    delivered all of its bytes. *)
Theorem bytes_are_delivered d sched p :
  open_pair p ->
  room (sink d p) = [] ->
  task_of d p = Running ->
  (List.length (inbox (source d p)) <= turns d sched)%nat ->
  written (sink d (run_pair sched p))
    = written (sink d p) ++ pending (inbox (source d p)).
Proof.
  intros Hp Hr Ht Hn.
  pose proof (proj2 (run_pair_conserves d sched p Hp Hr)) as Hc.
  rewrite (chunks_ahead_pending _
             (run_pair_drains d sched p Hp (or_introl Ht)
                ltac:(pose proof (chunks_ahead_le (inbox (source d p))); lia)))
    in Hc.
  rewrite app_nil_r in Hc. exact Hc.
Qed.

Lemma bytes_are_delivered_witness :
  written (sink FromClient
     (run_pair [FromClient; FromBackend; FromClient; FromClient]
        (Pair (Conn [Sends [Byte.x68]; Sends [Byte.x69]; Closes] false []
                    [0%nat])
              (Conn [Sends [Byte.x6f]] false [] []) Running Running)))
    = [] ++ [Byte.x68; Byte.x69].
Proof.
  apply (bytes_are_delivered FromClient
           [FromClient; FromBackend; FromClient; FromClient]
           (Pair (Conn [Sends [Byte.x68]; Sends [Byte.x69]; Closes] false []
                       [0%nat])
                 (Conn [Sends [Byte.x6f]] false [] []) Running Running)).
  - split; reflexivity.
  - reflexivity.
  - reflexivity.
  - simpl. lia.
Defined.

End DeliveryFacts.

(** ** The two programs side by side *)

Module CompareFacts.
Import Activate Vocabulary Observations.

Lemma old_events_app tr1 tr2 :
  List.flat_map old_event (tr1 ++ tr2)
    = List.flat_map old_event tr1 ++ List.flat_map old_event tr2.
Proof. apply List.flat_map_app. Qed.

(** X18.  While the back end answers the first dial of every connection,
    the newer program does what the older one did: accept for accept,
    dial for dial and spawn for spawn, the two proxy loops leave the same
    events, whatever the durations and the back-end timeout. *)
Theorem same_as_before_when_answered bt script : forall had st now,
  Forall answered script ->
  List.flat_map old_event (snd (accept_loop bt true had st now script))
    = snd (Activator.accept_loop (List.map outcomes script)).
Proof.
  induction script as [|c rest IH]; intros had st now Hall; simpl.
  - reflexivity.
  - inversion Hall as [|c' rest' Hc Hrest]; subst.
    destruct (accept_ok c); simpl; [|reflexivity].
    unfold answered in Hc.
    destruct (dials c) as [|t ts]; simpl.
    + reflexivity.
    + rewrite Hc. simpl.
      specialize (IH true st (now + accept_took c + dial_took t) Hrest).
      destruct (accept_loop bt true true st _ rest) as [r tr].
      destruct (Activator.accept_loop (List.map outcomes rest)) as [r' tr'].
      simpl in *. rewrite IH. reflexivity.
Qed.

Lemma same_as_before_when_answered_witness :
  List.flat_map old_event
    (snd (accept_loop (30 * Second) true false 0 0
            [Incoming 5 true [DialTry 1 true 0];
             Incoming 7 false []]))
    = snd (Activator.accept_loop
             (List.map outcomes
                [Incoming 5 true [DialTry 1 true 0];
                 Incoming 7 false []])).
Proof.
  apply (same_as_before_when_answered (30 * Second)
           [Incoming 5 true [DialTry 1 true 0]; Incoming 7 false []]
           false 0 0).
  repeat (apply List.Forall_cons; [unfold answered; simpl; auto|]).
  apply List.Forall_nil.
Defined.

End CompareFacts.

(** ** The proxy loop of the older program *)

Module OldProxyFacts.
Import Activator TraceFacts ActivatorFacts.

Lemma old_dial_success_last tries : forall pre post,
  snd (dial_loop 0 tries) = pre ++ EvDial true :: post ->
  post = [] /\ fst (dial_loop 0 tries) = LoopLeft 0 true.
Proof.
  induction tries as [|[|] rest IH]; intros pre post H; simpl in *.
  - symmetry in H. destruct (app_cons_nil _ _ _ H).
  - symmetry in H. head H.
    + subst. auto.
    + destruct (app_cons_nil _ _ _ H).
  - destruct (dial_loop 0 rest) as [r tr]. simpl in *.
    symmetry in H. head H. head H. symmetry in H. exact (IH _ _ H).
Qed.

Lemma old_dial_sleeps tries d :
  In (EvSleep d) (snd (dial_loop 0 tries)) -> d = 100 * Millisecond.
Proof.
  induction tries as [|[|] rest IH]; simpl.
  - tauto.
  - intros [H | []]. discriminate.
  - destruct (dial_loop 0 rest) as [r tr]. simpl in *.
    intros [H | [H | H]]; [discriminate | congruence | exact (IH H)].
Qed.

(** X20.  In the older program every sleep of the proxy loop is one of
    100ms, and every dial that succeeds is followed at once by the start
    of the two forwarders: no accepted client is dropped once its dial
    succeeded. *)
Theorem old_proxy_serves_every_success script :
  (forall d, In (EvSleep d) (snd (accept_loop script)) ->
             d = 100 * Millisecond) /\
  (forall pre post,
     snd (accept_loop script) = pre ++ EvDial true :: post ->
     exists post', post = EvSpawn :: post').
Proof.
  induction script as [|[[|] tries] rest [IH1 IH2]]; simpl.
  - split.
    + intros d [H | []]. discriminate.
    + intros pre post H. symmetry in H. head H.
      destruct (app_cons_nil _ _ _ H).
  - pose proof (old_dial_success_last tries) as Hd.
    pose proof (old_dial_sleeps tries) as Hs.
    pose proof (dial_loop_leaves_connected tries) as Hc.
    destruct (dial_loop 0 tries) as [[c b | c] tr]; simpl in *.
    + destruct Hc as [[= -> ->] | Hc]; [|discriminate].
      destruct (accept_loop rest) as [r tr']. simpl in *. split.
      * intros d [H | [H | H]]; try discriminate.
        apply in_app_or in H. destruct H as [H | [H | H]];
          [exact (Hs d H) | discriminate | exact (IH1 d H)].
      * intros pre post H. symmetry in H. head H. head H.
        apply locate in H. destruct H as [(l & -> & ->) | (l & -> & Hl)].
        -- destruct (Hd _ _ eq_refl) as [-> _]. simpl. eauto.
        -- symmetry in Hl. head Hl. symmetry in Hl. exact (IH2 _ _ Hl).
    + split.
      * intros d [H | [H | H]]; try discriminate. exact (Hs d H).
      * intros pre post H. symmetry in H. head H. head H.
        destruct (Hd _ _ (eq_sym H)) as [_ Hr]. discriminate.
  - split.
    + intros d [H | [H | [H | []]]]; discriminate.
    + intros pre post H. symmetry in H. head H. head H. head H.
      destruct (app_cons_nil _ _ _ H).
Qed.

End OldProxyFacts.

(** ** The unit controller *)

Module UnitControlFacts.
Import UnitControl.

(** X21.  The controller is made on the bus the flag [-user] selects, the
    other bus plays no part in it; and what it sends to stop the unit is
    what it sent to start it, on the same bus, to the same object, for
    the same unit and mode, with the method name alone changed. *)
Theorem stop_addresses_started_unit (user : bool) reachable reachable' name unitCtrl :
  reachable (if user then SessionBus else SystemBus)
    = reachable' (if user then SessionBus else SystemBus) ->
  newUnitController user reachable name = inl unitCtrl ->
  newUnitController user reachable' name = inl unitCtrl /\
  conn unitCtrl = (if user then SessionBus else SystemBus) /\
  call_unit (start_call unitCtrl) = name /\
  stop_call unitCtrl
    = with_method "org.freedesktop.systemd1.Manager.StopUnit"
                  (start_call unitCtrl).
Proof.
  unfold newUnitController. destruct user; intros <-.
  - destruct (reachable SessionBus); [|discriminate].
    intros [= <-]. repeat split.
  - destruct (reachable SystemBus); [|discriminate].
    intros [= <-]. repeat split.
Qed.

(** With [-user] and a system bus that is down. *)
Lemma stop_addresses_started_unit_witness :
  newUnitController true (fun _ => true) "x.service"
    = inl (UnitController SessionBus "x.service") /\
  call_unit (start_call (UnitController SessionBus "x.service"))
    = "x.service"%string.
Proof.
  destruct (stop_addresses_started_unit true
              (fun b => match b with
                        | SessionBus => true
                        | SystemBus => false
                        end)
              (fun _ => true)
              "x.service" (UnitController SessionBus "x.service")
              eq_refl eq_refl) as (H1 & _ & H3 & _).
  split; [exact H1 | exact H3].
Defined.

End UnitControlFacts.
